(** * text-readability-ts: the readability engine of [src/index.ts]

    A shallow embedding of the [Readability] class: the tokenizer, the metric
    primitives, the ten formulas and the two aggregators, followed by the
    properties of the specification that were checked against it.

    - A JavaScript [number] is an IEEE 754 binary64 value: [spec_float] of the
      Standard Library with [prec = 53] and [emax = 1024]; every arithmetic
      operator is the correctly rounded one of [SpecFloat].
    - Counts ([length] of an array or a string, loop counters) are integers far
      below [2^53]; they are kept in [Z] and enter float arithmetic through
      [Num.of_Z] at the first division or multiplication by a decimal constant.
    - A JavaScript string is its sequence of UTF-16 code units ([list N]); the
      regular expressions of the source have no [u] flag, so they match code
      unit by code unit.
    - The collaborators that live outside the repository ([syllable],
      [pluralize], the easy word list, [toLocaleLowerCase], [Number::toString]
      and the implementation-approximated [**] at a fractional exponent) are
      Section variables. *)

From Stdlib Require Import ZArith NArith List Bool Lia String Ascii.
From Stdlib Require Import Floats.SpecFloat Sorting.Sorted.
From stdpp Require Import base list gmap sorting.
Import ListNotations.

Local Open Scope Z_scope.

(** ** JavaScript numbers *)

Module Num.

Definition prec : Z := 53.
Definition emax : Z := 1024.

Abbreviation number := spec_float.

(** The number whose value is the integer [z] (exact below [2^53]). *)
Definition of_Z (z : Z) : number := binary_normalize prec emax z 0 false.

Definition add : number -> number -> number := SFadd prec emax.
Definition sub : number -> number -> number := SFsub prec emax.
Definition mul : number -> number -> number := SFmul prec emax.
Definition div : number -> number -> number := SFdiv prec emax.
Definition opp : number -> number := SFopp.
Definition abs : number -> number := SFabs.

(** [x < y], [x <= y] and [x === y]; each is false when an operand is NaN,
    and [+0 === -0]. *)
Definition ltb : number -> number -> bool := SFltb.
Definition leb : number -> number -> bool := SFleb.
Definition eqb : number -> number -> bool := SFeqb.

Definition NaN : number := S754_nan.
Definition zero : number := S754_zero false.

Definition isNaN (x : number) : bool :=
  match x with S754_nan => true | _ => false end.

(** The decimal literal [m / 10^k], read as the source reads it: the binary64
    value nearest to the quotient (both operands are exact, the division is
    correctly rounded). *)
Definition dec (m : Z) (k : nat) : number :=
  div (of_Z m) (of_Z (10 ^ Z.of_nat k)).

(** [Math.floor]: NaN, the infinities and the zeros are returned unchanged. *)
Definition floor (x : number) : number :=
  match x with
  | S754_finite s m e =>
      if 0 <=? e then x
      else
        let d := 2 ^ (- e) in
        let q := Z.pos m / d in
        let r := Z.pos m mod d in
        if s then of_Z (- (q + (if r =? 0 then 0 else 1))) else of_Z q
  | _ => x
  end.

(** [Math.ceil]: a negative argument above [-1] gives [-0]. *)
Definition ceil (x : number) : number :=
  match x with
  | S754_finite s m e =>
      if 0 <=? e then x
      else
        let d := 2 ^ (- e) in
        let q := Z.pos m / d in
        let r := Z.pos m mod d in
        if s then (if q =? 0 then S754_zero true else of_Z (- q))
        else of_Z (q + (if r =? 0 then 0 else 1))
  | _ => x
  end.

End Num.

Import Num.

Declare Scope num_scope.
Delimit Scope num_scope with num.
Infix "+" := Num.add : num_scope.
Infix "-" := Num.sub : num_scope.
Infix "*" := Num.mul : num_scope.
Infix "/" := Num.div : num_scope.
Notation "- x" := (Num.opp x) : num_scope.
Notation "x <? y" := (Num.ltb x y) : num_scope.
Notation "x <=? y" := (Num.leb x y) : num_scope.
Notation "x >? y" := (Num.ltb y x) : num_scope.
Notation "x >=? y" := (Num.leb y x) : num_scope.
Notation "x === y" := (Num.eqb x y) (at level 70, no associativity) : num_scope.

(** ** [Math.copySign] and [Math.legacyRound] (index.ts, lines 16-24) *)

Definition copySign (x y : number) : number :=
  (x * (y / Num.abs y))%num.

(** [10 ** points]: every call site passes the literal 0, 1 or 2 (or nothing,
    which is 0), where the power is exact. *)
Definition pow10 (points : nat) : number := of_Z (10 ^ Z.of_nat points).

Definition legacyRound (number : number) (points : nat) : Num.number :=
  let p := pow10 points in
  (Num.floor (number * p + copySign (dec 5 1) number) / p)%num.

(** ** JavaScript strings *)

Abbreviation jsstring := (list N).

(** The code units of an ASCII literal. *)
Definition str (s : string) : jsstring :=
  map N_of_ascii (list_ascii_of_string s).

Definition in_range (lo hi c : N) : bool := ((lo <=? c) && (c <=? hi))%N.

Definition elem (c : N) (cs : jsstring) : bool := existsb (N.eqb c) cs.

(** [punctuationRE] (line 6): two Unicode blocks, then backslash, quote,
    exclamation mark, double quote (code 34) and the rest of the ASCII
    punctuation, in the order of the character class. *)
Definition punctuationRE (c : N) : bool :=
  in_range 0x2000 0x206F c || in_range 0x2E00 0x2E7F c
  || elem c (str "\'!" ++ 34%N :: str "#$%&()*+,-./:;<=>?@[]^_`{|}~").

(** [getGradeSuffix] (lines 33-42). A property key is the decimal text of the
    floored grade, so a key is found exactly when the grade is that integer. *)
Definition gradeMap : list (Z * jsstring) :=
  [(1, str "st"); (2, str "nd"); (3, str "rd")].

Definition getGradeSuffix (grade : number) : jsstring :=
  let grade := Num.floor grade in
  match List.find (fun kv => (grade === of_Z (fst kv))%num) gradeMap with
  | Some kv => snd kv
  | None => str "th"
  end.

(** ** Tokenizer *)

(** [charCount] and [letterCount] (lines 50-64); [/ /g] is the space alone. *)
Definition removeSpaces (text : jsstring) : jsstring :=
  List.filter (fun c => negb (c =? 32)%N) text.

Definition charCount (text : jsstring) (ignoreSpaces : bool) : Z :=
  let text := if ignoreSpaces then removeSpaces text else text in
  Z.of_nat (length text).

Definition removePunctuation (text : jsstring) : jsstring :=
  List.filter (fun c => negb (punctuationRE c)) text.

Definition letterCount (text : jsstring) (ignoreSpaces : bool) : Z :=
  let text := if ignoreSpaces then removeSpaces text else text in
  Z.of_nat (length (removePunctuation text)).

(** [String.prototype.split] on a one-character separator class: the pieces
    between separators, empty ones included; the empty string gives one empty
    piece. *)
Fixpoint split_on (sep : N -> bool) (text : jsstring) : list jsstring :=
  match text with
  | [] => [[]]
  | c :: rest =>
      if sep c then [] :: split_on sep rest
      else match split_on sep rest with
           | piece :: pieces => (c :: piece) :: pieces
           | [] => [[c]]
           end
  end.

(** The separator [/,| |\n|\r/]. *)
Definition wordSeparator (c : N) : bool := elem c [44; 32; 10; 13]%N.

(** [.filter(n => n)]: the empty string is the only falsy string. *)
Definition truthy (s : jsstring) : bool :=
  match s with [] => false | _ => true end.

(** [Readability.split] (lines 81-85). *)
Definition split (text : jsstring) : list jsstring :=
  List.filter truthy (split_on wordSeparator text).

(** [lexiconCount] (lines 93-98). *)
Definition lexiconCount (text : jsstring) (removePunct : bool) : Z :=
  let text := if removePunct then removePunctuation text else text in
  Z.of_nat (length (List.filter truthy (split_on wordSeparator text))).

(** The sentence boundary of line 122: any spaces, one of [.?!], any closers
    (quote, double quote, closing parenthesis or bracket), one of space,
    vertical bar or newline, and an upper-case ASCII letter as lookahead. The
    two starred classes are disjoint from the class that follows each of
    them, so the greedy match never backtracks: the length of the match
    anchored at the head of [text], when there is one. *)
Fixpoint skip_while (p : N -> bool) (text : jsstring) : nat * jsstring :=
  match text with
  | c :: rest =>
      if p c then let '(n, tail) := skip_while p rest in (S n, tail)
      else (O, text)
  | [] => (O, [])
  end.

Definition sentenceBoundary (text : jsstring) : option nat :=
  let '(spaces, t1) := skip_while (fun c => (c =? 32)%N) text in
  match t1 with
  | mark :: t2 =>
      if elem mark (str ".?!") then
        let '(closers, t3) := skip_while (fun c => elem c (39 :: 34 :: str ")]")%N) t2 in
        match t3 with
        | gap :: next :: _ =>
            if elem gap [32; 124; 10]%N && in_range 65 90 next
            then Some (spaces + 1 + closers + 1)%nat
            else None
        | _ => None
        end
      else None
  | [] => None
  end.

(** [text.split(boundary)]: scan left to right; at a position where the
    boundary matches, close the current piece and resume after the match
    ([skip] counts the code units of the match still to pass). *)
Fixpoint splitSentences_from (skip : nat) (text : jsstring) : list jsstring :=
  match text with
  | [] => [[]]
  | c :: rest =>
      match skip with
      | S k => splitSentences_from k rest
      | O =>
          match sentenceBoundary text with
          | Some (S n) => [] :: splitSentences_from n rest
          | _ =>
              match splitSentences_from O rest with
              | piece :: pieces => (c :: piece) :: pieces
              | [] => [[c]]
              end
          end
      end
  end.

Definition splitSentences (text : jsstring) : list jsstring :=
  splitSentences_from O text.

(** [sentenceCount] (lines 120-128). *)
Definition sentenceCount (text : jsstring) : Z :=
  let sentences := splitSentences text in
  let ignoreCount :=
    fold_left
      (fun ignoreCount sentence =>
         if lexiconCount sentence true <=? 2 then ignoreCount + 1 else ignoreCount)
      sentences 0 in
  let validSentences := Z.of_nat (length sentences) - ignoreCount in
  if validSentences >? 1 then validSentences else 1.

(** [Array.prototype.join]. *)
Fixpoint join (sep : jsstring) (pieces : list jsstring) : jsstring :=
  match pieces with
  | [] => []
  | [piece] => piece
  | piece :: rest => piece ++ sep ++ join sep rest
  end.

(** [word.endsWith(suffix)] and [word.slice(0, -k)]. *)
Definition endsWith (word suffix : jsstring) : bool :=
  (length suffix <=? length word)%nat
  && bool_decide (drop (length word - length suffix)%nat word = suffix).

Definition slice_end (word : jsstring) (k : nat) : jsstring :=
  take (length word - k)%nat word.

(** The class [[\w=...]] of the difficult-word scan (line 349): ASCII letters,
    digits, underscore, the equals sign and the two curly quotes U+2018 and
    U+2019. *)
Definition wordChar (c : N) : bool :=
  in_range 65 90 c || in_range 97 122 c || in_range 48 57 c || (c =? 95)%N
  || (c =? 61)%N || (c =? 0x2018)%N || (c =? 0x2019)%N.

(** [text.match(/[class]+/g)]: the maximal runs of class members, left to
    right ([cur] is the run being read, reversed); [null] when there is none. *)
Fixpoint match_runs (p : N -> bool) (cur text : jsstring) : list jsstring :=
  match text with
  | [] => if truthy cur then [rev cur] else []
  | c :: rest =>
      if p c then match_runs p (c :: cur) rest
      else if truthy cur then rev cur :: match_runs p [] rest
      else match_runs p [] rest
  end.

Definition matchAll (p : N -> bool) (text : jsstring) : option (list jsstring) :=
  match match_runs p [] text with
  | [] => None
  | runs => Some runs
  end.

(** [new Set(array)] spread back into an array: the distinct values in the
    order of their first occurrence. A set compares with SameValueZero (NaN
    equals NaN, the two zeros are equal) and stores [-0] as [+0]. *)
Definition sameValueZero (x y : number) : bool :=
  (isNaN x && isNaN y) || (x === y)%num.

Definition Set_stored (x : number) : number :=
  match x with S754_zero _ => Num.zero | _ => x end.

Definition Set_add (set : list number) (x : number) : list number :=
  if existsb (sameValueZero x) set then set else set ++ [Set_stored x].

Definition Set_of (values : list number) : list number :=
  fold_left Set_add values [].

(** [array.reduce(f)] without an initial value; it throws on the empty
    array ([None]). *)
Definition reduce {A} (f : A -> A -> A) (array : list A) : option A :=
  match array with
  | [] => None
  | x :: rest => Some (fold_left f rest x)
  end.

(** [array.sort(comparefn)] as V8, the engine of Node.js, runs it on an
    array of fewer than 64 numbers (array-sort.tq; [textMedian] sorts
    eight): the array is a single run of the merge sort, so no merge takes
    place. [CountAndMakeRun] finds the longest run at the start of the array
    that is ascending, or strictly descending and then reversed in place, and
    [BinaryInsertionSort] inserts the elements behind the run one after the
    other, each at the place a binary search finds. With a consistent
    comparator this is the one order the language fixes; with an
    inconsistent one (a NaN among the scores) the order is the engine's
    choice and this is what the engine does. *)

(** The verdict of the comparator as the sort reads it: a NaN verdict
    counts as [+0]. *)
Definition SortCompare (comparefn : number -> number -> number) (x y : number)
    : number :=
  let v := comparefn x y in
  if isNaN v then Num.zero else v.

(** The loop of [CountAndMakeRun]: the number of elements of [rest] that
    continue the run whose last element is [previousElement]. *)
Fixpoint run_extent (comparefn : number -> number -> number)
    (isDescending : bool) (previousElement : number) (rest : list number) : nat :=
  match rest with
  | [] => 0
  | currentElement :: rest =>
      let order := SortCompare comparefn currentElement previousElement in
      if (if isDescending then (order >=? Num.zero)%num
          else (order <? Num.zero)%num)
      then 0
      else S (run_extent comparefn isDescending currentElement rest)
  end.

(** The work array after the run is made, and the length of the run. *)
Definition CountAndMakeRun (comparefn : number -> number -> number)
    (workArray : list number) : list number * nat :=
  match workArray with
  | elementHigh :: elementLow :: rest =>
      let order := SortCompare comparefn elementLow elementHigh in
      let isDescending := (order <? Num.zero)%num in
      let runLength :=
        (2 + run_extent comparefn isDescending elementLow rest)%nat in
      if isDescending
      then (rev (take runLength workArray) ++ drop runLength workArray,
            runLength)
      else (workArray, runLength)
  | _ => (workArray, length workArray)
  end.

(** The search loop of [BinaryInsertionSort], [while (left < right)], in
    the run before the pivot; each turn halves [right - left], so a fuel of
    [right - left] is never used up ([binary_search_fuel]). *)
Fixpoint binary_search (fuel : nat) (comparefn : number -> number -> number)
    (run : list number) (pivot : number) (left right : nat) : nat :=
  match fuel with
  | O => left
  | S fuel =>
      if (left <? right)%nat then
        let mid := (left + (right - left) / 2)%nat in
        let order :=
          SortCompare comparefn pivot (default Num.NaN (run !! mid)) in
        if (order <? Num.zero)%num
        then binary_search fuel comparefn run pivot left mid
        else binary_search fuel comparefn run pivot (mid + 1) right
      else left
  end.

(** [run] is the part of the work array already in place, [rest] the
    elements still to insert, from left to right. *)
Fixpoint BinaryInsertionSort (comparefn : number -> number -> number)
    (run rest : list number) : list number :=
  match rest with
  | [] => run
  | pivot :: rest =>
      let left :=
        binary_search (length run) comparefn run pivot 0 (length run) in
      BinaryInsertionSort comparefn
        (take left run ++ pivot :: drop left run) rest
  end.

Definition Array_sort (comparefn : number -> number -> number)
    (array : list number) : list number :=
  let '(workArray, runLength) := CountAndMakeRun comparefn array in
  BinaryInsertionSort comparefn (take runLength workArray)
    (drop runLength workArray).

(** [array[i]] read as a number: [undefined] out of range. *)
Definition at_index (array : list number) (i : Z) : option number :=
  if i <? 0 then None else array !! Z.to_nat i.

(** What [textStandard] returns: a number, or the formatted grade range. *)
Inductive consensus : Type :=
| ConsensusNumber (score : number)
| ConsensusText (text : jsstring).

(** Two numbers are the same datum or not: decidable, for checks by
    computation. *)
#[local] Instance number_eq_dec : EqDecision number.
Proof. solve_decision. Defined.

(** The numbers on which [legacyRound] has no sign to copy: NaN, the
    infinities and the zeros. *)
Definition degenerate (x : number) : bool :=
  match x with S754_finite _ _ _ => false | _ => true end.

(** [x] is a number (not NaN) whose sign bit is [s]: a zero, an infinity or
    a finite number. *)
Definition signed (s : bool) (x : number) : bool :=
  match x with
  | S754_nan => false
  | S754_zero s' | S754_infinity s' | S754_finite s' _ _ => Bool.eqb s' s
  end.

(** A number that is not zero and whose sign bit is [s]. *)
Definition strictly_signed (s : bool) (x : number) : Prop :=
  (x <? Num.zero)%num = s /\ (Num.zero <? x)%num = negb s /\ isNaN x = false.

(** A mantissa and an exponent in canonical form: the exponent is the one
    the format gives a number of that many digits. *)
Definition canonical_pair (m e : Z) : Prop :=
  0 <= m /\ fexp prec emax (Zdigits2 m + e) = e.

(** The numbers the comparator [a - b] orders as [<] does: every binary64
    number but NaN ([valid_binary] leaves out the triples of [spec_float]
    that are no binary64 number). *)
Definition comparable (x : number) : bool :=
  negb (isNaN x) && valid_binary prec emax x.

(** An array in ascending order: every element is [<=] every later one. *)
Definition ascending (array : list number) : Prop :=
  StronglySorted (fun a b => (a <=? b)%num = true) array.

(** The index of the first value of [values] that a set takes for [x] (the
    length of [values] when there is none). *)
Fixpoint first_index (x : number) (values : list number) : nat :=
  match values with
  | [] => 0
  | v :: rest => if sameValueZero v x then 0 else S (first_index x rest)
  end.

(** What the set holds after the values [done]: its elements stand in the
    order in which they first occur in [done], and every value of [done]
    has its element. *)
Definition first_seen (done set : list number) : Prop :=
  StronglySorted lt (map (fun x => first_index x done) set)
  /\ Forall (fun x => (first_index x done < length done)%nat) set
  /\ Forall (fun v => existsb (sameValueZero v) set = true) done.

(** The blank characters of the tokenizer: space, newline, carriage return. *)
Definition blank (c : N) : bool := elem c [32; 10; 13]%N.

(** The number of words that begin in [text], read left to right; [inWord]
    tells whether the character before [text] belongs to a word. *)
Fixpoint wordStarts (inWord : bool) (text : jsstring) : nat :=
  match text with
  | [] => O
  | c :: rest =>
      if wordSeparator c then wordStarts false rest
      else ((if inWord then 0 else 1) + wordStarts true rest)%nat
  end.

(** A key that orders the numbers as [<] does: the sign class (negative
    infinity, negative, zero, positive, positive infinity), then the exponent,
    then the mantissa, the last two mirrored for a negative number. The two
    zeros share a key; NaN is given the key of zero and is never compared. *)
Definition order_key (x : number) : Z * Z * Z :=
  match x with
  | S754_infinity true => (-2, 0, 0)
  | S754_finite true m e => (-1, - e, - Z.pos m)
  | S754_zero _ => (0, 0, 0)
  | S754_nan => (0, 0, 0)
  | S754_finite false m e => (1, e, Z.pos m)
  | S754_infinity false => (2, 0, 0)
  end.

Definition key_lt (a b : Z * Z * Z) : Prop :=
  fst (fst a) < fst (fst b)
  \/ (fst (fst a) = fst (fst b)
      /\ (snd (fst a) < snd (fst b)
          \/ (snd (fst a) = snd (fst b) /\ snd a < snd b))).

(** ** Fixtures

    Small stand-ins for the collaborators that live outside the repository,
    to run the engine on concrete texts: ASCII lower-casing, a syllable
    estimate that counts the maximal runs of vowels, a pluralizer that appends
    an s, a four-word dictionary and the square root for the power [0.5]. *)
Definition fixture_lower (locale : option jsstring) (text : jsstring) : jsstring :=
  map (fun c => if in_range 65 90 c then (c + 32)%N else c) text.

Definition fixture_syllable (word : jsstring) : N :=
  N.of_nat (length (match_runs (fun c => elem c (str "aeiouy")) [] word)).

Definition fixture_pluralize (word : jsstring) : jsstring := word ++ str "s".

Definition fixture_easyWords : list jsstring :=
  [str "like"; str "force"; str "walk"; str "the"].

Definition fixture_pow (x y : number) : number := SFsqrt Num.prec Num.emax x.

(** A number printer that prints nothing: the number that [textStandard]
    returns with [floatOutput] does not pass through it. *)
Definition fixture_toString (x : number) : jsstring := [].

(** ** The [Readability] class *)

Section Readability.

(** The [syllable] and [pluralize] packages and the easy word list. *)
Variable syllable : jsstring -> N.
Variable pluralize : jsstring -> jsstring.
Variable easyWords : list jsstring.
(** [String.prototype.toLocaleLowerCase] with its optional locale. *)
Variable toLocaleLowerCase : option jsstring -> jsstring -> jsstring.
(** [x ** y] where the exponent is not an integer, and [Number::toString]. *)
Variable Math_pow : number -> number -> number.
Variable Number_toString : number -> jsstring.

Definition easyWordSet : gset jsstring := list_to_set easyWords.

(** [syllableCount] (lines 106-113), at its default locale. *)
Definition syllableCount (text : jsstring) : Z :=
  let text := toLocaleLowerCase (Some (str "en-US")) text in
  let text := removePunctuation text in
  if negb (truthy text) then 0 else Z.of_N (syllable text).

(** The five averages (lines 135-185). *)
Definition averageSentenceLength (text : jsstring) : number :=
  let asl := (of_Z (lexiconCount text true) / of_Z (sentenceCount text))%num in
  let returnVal := legacyRound asl 1 in
  if negb (isNaN returnVal) then returnVal else Num.zero.

Definition averageSyllablePerWord (text : jsstring) : number :=
  let syllables := syllableCount text in
  let words := lexiconCount text true in
  let syllablePerWord := (of_Z syllables / of_Z words)%num in
  let returnVal := legacyRound syllablePerWord 1 in
  if negb (isNaN returnVal) then returnVal else Num.zero.

Definition averageCharacterPerWord (text : jsstring) : number :=
  let charactersPerWord :=
    (of_Z (charCount text true) / of_Z (lexiconCount text true))%num in
  let returnVal := legacyRound charactersPerWord 2 in
  if negb (isNaN returnVal) then returnVal else Num.zero.

Definition averageLetterPerWord (text : jsstring) : number :=
  let lettersPerWord :=
    (of_Z (letterCount text true) / of_Z (lexiconCount text true))%num in
  let returnVal := legacyRound lettersPerWord 2 in
  if negb (isNaN returnVal) then returnVal else Num.zero.

Definition averageSentencePerWord (text : jsstring) : number :=
  let sentencesPerWord :=
    (of_Z (sentenceCount text) / of_Z (lexiconCount text true))%num in
  let returnVal := legacyRound sentencesPerWord 2 in
  if negb (isNaN returnVal) then returnVal else Num.zero.

(** The formulas (lines 192-285). *)
Definition fleschReadingEase (text : jsstring) : number :=
  let sentenceLength := averageSentenceLength text in
  let syllablesPerWord := averageSyllablePerWord text in
  let flesch :=
    (dec 206835 3 - dec 1015 3 * sentenceLength - dec 846 1 * syllablesPerWord)%num in
  legacyRound flesch 2.

Definition fleschReadingEaseToGrade (score : number) : number :=
  if (score <? of_Z 100)%num && (score >=? of_Z 90)%num then of_Z 5
  else if (score <? of_Z 90)%num && (score >=? of_Z 80)%num then of_Z 6
  else if (score <? of_Z 80)%num && (score >=? of_Z 70)%num then of_Z 7
  else if (score <? of_Z 70)%num && (score >=? of_Z 60)%num then dec 85 1
  else if (score <? of_Z 60)%num && (score >=? of_Z 50)%num then of_Z 11
  else if (score <? of_Z 50)%num && (score >=? of_Z 40)%num then of_Z 13
  else if (score <? of_Z 40)%num && (score >=? of_Z 30)%num then of_Z 15
  else of_Z 16.

Definition fleschKincaidGrade (text : jsstring) : number :=
  let sentenceLength := averageSentenceLength text in
  let syllablePerWord := averageSyllablePerWord text in
  let flesch :=
    (dec 39 2 * sentenceLength + dec 118 1 * syllablePerWord - dec 1559 2)%num in
  legacyRound flesch 1.

Definition polySyllableCount (text : jsstring) : Z :=
  fold_left
    (fun count word =>
       let wrds := syllableCount word in
       if wrds >=? 3 then count + 1 else count)
    (split text) 0.

Definition smogIndex (text : jsstring) : number :=
  let sentences := sentenceCount text in
  if sentences >=? 3 then
    let polySyllab := polySyllableCount text in
    let smog :=
      (dec 1043 3 * Math_pow (of_Z 30 * (of_Z polySyllab / of_Z sentences)) (dec 5 1)
       + dec 31291 4)%num in
    let returnVal := legacyRound smog 1 in
    if negb (isNaN returnVal) then returnVal else Num.zero
  else Num.zero.

Definition colemanLiauIndex (text : jsstring) : number :=
  let letters := legacyRound (averageLetterPerWord text * of_Z 100)%num 2 in
  let sentences := legacyRound (averageSentencePerWord text * of_Z 100)%num 2 in
  let coleman := (dec 58 3 * letters - dec 296 3 * sentences - dec 158 1)%num in
  legacyRound coleman 2.

Definition automatedReadabilityIndex (text : jsstring) : number :=
  let characters := charCount text true in
  let words := lexiconCount text true in
  let sentences := sentenceCount text in
  let averageCharacterPerWord := (of_Z characters / of_Z words)%num in
  let averageWordPerSentence := (of_Z words / of_Z sentences)%num in
  let readability :=
    (dec 471 2 * legacyRound averageCharacterPerWord 2
     + dec 5 1 * legacyRound averageWordPerSentence 2
     - dec 2143 2)%num in
  let returnVal := legacyRound readability 1 in
  if negb (isNaN returnVal) then returnVal else Num.zero.

(** [linsearWriteFormula] (lines 292-309): the first hundred words, and the
    sentence count of those words joined by single spaces. *)
Definition linsearWriteFormula (text : jsstring) : number :=
  let textList := take 100 (split text) in
  let '(easyWord, difficultWord) :=
    fold_left
      (fun '(easyWord, difficultWord) word =>
         if syllableCount word <? 3 then (easyWord + 1, difficultWord)
         else (easyWord, difficultWord + 1))
      textList (0, 0) in
  let text := join (str " ") textList in
  let number :=
    (of_Z (easyWord * 1 + difficultWord * 3) / of_Z (sentenceCount text))%num in
  let returnVal :=
    if (number <=? of_Z 20)%num then ((number - of_Z 2) / of_Z 2)%num
    else (number / of_Z 2)%num in
  let returnVal := legacyRound returnVal 1 in
  if negb (isNaN returnVal) then returnVal else Num.zero.

(** [presentTense] (lines 320-340). *)
Definition presentTense (word : jsstring) : jsstring :=
  if (length word <? 6)%nat then word
  else if endsWith word (str "ed") then
    if bool_decide (slice_end word 1 ∈ easyWordSet) then slice_end word 1
    else slice_end word 2
  else if endsWith word (str "ing") then
    let suffixIngToE := slice_end word 3 ++ str "e" in
    if bool_decide (suffixIngToE ∈ easyWordSet) then suffixIngToE
    else slice_end word 3
  else word.

(** [difficultWords] (lines 348-362): the set is keyed by the word as it
    stands in the text. *)
Definition isDifficult (syllableThreshold : Z) (word : jsstring) : bool :=
  let normalized := presentTense (pluralize (toLocaleLowerCase None word)) in
  negb (bool_decide (normalized ∈ easyWordSet))
  && (syllableCount word >=? syllableThreshold).

Definition difficultWords (text : jsstring) (syllableThreshold : Z) : Z :=
  let textList := matchAll wordChar text in
  let diffWordsSet : gset jsstring := ∅ in
  match textList with
  | None => Z.of_nat (size diffWordsSet)
  | Some textList =>
      let diffWordsSet :=
        fold_left
          (fun (diffWordsSet : gset jsstring) word =>
             if isDifficult syllableThreshold word then {[word]} ∪ diffWordsSet
             else diffWordsSet)
          textList diffWordsSet in
      Z.of_nat (size diffWordsSet)
  end.

(** [daleChallReadabilityScore] and [daleChallToGrade] (lines 369-394). *)
Definition daleChallReadabilityScore (text : jsstring) : number :=
  let wordCount := lexiconCount text true in
  let count := wordCount - difficultWords text 2 in
  let per := (of_Z count / of_Z wordCount * of_Z 100)%num in
  if isNaN per then Num.zero
  else
    let difficultWords := (of_Z 100 - per)%num in
    let score :=
      (dec 1579 4 * difficultWords + dec 496 4 * averageSentenceLength text)%num in
    let score :=
      if (difficultWords >? of_Z 5)%num then (score + dec 36365 4)%num else score in
    legacyRound score 2.

Definition daleChallToGrade (score : number) : number :=
  if (score <=? dec 49 1)%num then of_Z 4
  else if (score <? dec 59 1)%num then of_Z 5
  else if (score <? dec 69 1)%num then of_Z 7
  else if (score <? dec 79 1)%num then of_Z 9
  else if (score <? dec 89 1)%num then of_Z 11
  else if (score <? dec 99 1)%num then of_Z 13
  else of_Z 16.

(** [gunningFog], [lix] and [rix] (lines 401-434). *)
Definition gunningFog (text : jsstring) : number :=
  let perDiffWords :=
    (of_Z (difficultWords text 3) / of_Z (lexiconCount text true) * of_Z 100)%num in
  let grade := (dec 4 1 * (averageSentenceLength text + perDiffWords))%num in
  let returnVal := legacyRound grade 2 in
  if negb (isNaN returnVal) then returnVal else Num.zero.

Definition longWordCount (words : list jsstring) : Z :=
  Z.of_nat (length (List.filter (fun wrd => Z.of_nat (length wrd) >? 6) words)).

Definition lix (text : jsstring) : number :=
  let words := split text in
  let wordsLen := Z.of_nat (length words) in
  let longWords := longWordCount words in
  let perLongWords := (of_Z longWords * of_Z 100 / of_Z wordsLen)%num in
  let asl := averageSentenceLength text in
  let lix := (asl + perLongWords)%num in
  legacyRound lix 2.

Definition rix (text : jsstring) : number :=
  let words := split text in
  let longWordsCount := longWordCount words in
  let sentencesCount := sentenceCount text in
  let rix := (of_Z longWordsCount / of_Z sentencesCount)%num in
  if negb (isNaN rix) then legacyRound rix 2 else Num.zero.

(** ** Aggregators *)

(** The votes of [textStandard] (lines 443-491), in the order of the pushes. *)
Definition textStandard_grade (text : jsstring) : list number :=
  let grade := [] in
  let lower := legacyRound (fleschKincaidGrade text) 0 in
  let upper := Num.ceil (fleschKincaidGrade text) in
  let grade := grade ++ [Num.floor lower] in
  let grade := grade ++ [Num.floor upper] in
  let score := fleschReadingEase text in
  let freGrade := fleschReadingEaseToGrade score in
  let grade := grade ++ [freGrade] in
  let lower := legacyRound (smogIndex text) 0 in
  let upper := Num.ceil (smogIndex text) in
  let grade := grade ++ [Num.floor lower] in
  let grade := grade ++ [Num.floor upper] in
  let lower := legacyRound (colemanLiauIndex text) 0 in
  let upper := Num.ceil (colemanLiauIndex text) in
  let grade := grade ++ [Num.floor lower] in
  let grade := grade ++ [Num.floor upper] in
  let lower := legacyRound (automatedReadabilityIndex text) 0 in
  let upper := Num.ceil (automatedReadabilityIndex text) in
  let grade := grade ++ [Num.floor lower] in
  let grade := grade ++ [Num.floor upper] in
  let lower := legacyRound (daleChallToGrade (daleChallReadabilityScore text)) 0 in
  let upper := Num.ceil (daleChallToGrade (daleChallReadabilityScore text)) in
  let grade := grade ++ [Num.floor lower] in
  let grade := grade ++ [Num.floor upper] in
  let lower := legacyRound (linsearWriteFormula text) 0 in
  let upper := Num.ceil (linsearWriteFormula text) in
  let grade := grade ++ [Num.floor lower] in
  let grade := grade ++ [Num.floor upper] in
  let lower := legacyRound (gunningFog text) 0 in
  let upper := Num.ceil (gunningFog text) in
  let grade := grade ++ [Num.floor lower] in
  let grade := grade ++ [Num.floor upper] in
  grade.

(** Lines 508-509: each distinct vote with the number of votes strictly
    equal ([===]) to it, and the fold that keeps the later of two entries
    unless the earlier has strictly more votes. *)
Definition counterMap (grade : list number) : list (number * Z) :=
  map
    (fun x => (x, Z.of_nat (length (List.filter (fun y => (y === x)%num) grade))))
    (Set_of grade).

Definition laterOrGreater (x y : number * Z) : number * Z :=
  if snd y >=? snd x then y else x.

Definition finalGrade (grade : list number) : option (number * Z) :=
  reduce laterOrGreater (counterMap grade).

(** [textStandard] (lines 442-515); [None] is the exception [reduce] throws
    on an empty array. *)
Definition textStandard (text : jsstring) (floatOutput : bool) : option consensus :=
  let grade := textStandard_grade text in
  match finalGrade grade with
  | None => None
  | Some finalGrade =>
      let score := fst finalGrade in
      if floatOutput then Some (ConsensusNumber score)
      else
        let lowerScore := (Num.floor score - of_Z 1)%num in
        let upperScore := (lowerScore + of_Z 1)%num in
        Some (ConsensusText
                (Number_toString lowerScore ++ getGradeSuffix lowerScore
                 ++ str " and "
                 ++ Number_toString upperScore ++ getGradeSuffix upperScore
                 ++ str " grade"))
  end.

(** The scores of [textMedian] (lines 523-546), in the order of the pushes. *)
Definition textMedian_grade (text : jsstring) : list number :=
  let grade := [] in
  let grade := grade ++ [fleschKincaidGrade text] in
  let score := fleschReadingEase text in
  let freGrade := fleschReadingEaseToGrade score in
  let grade := grade ++ [freGrade] in
  let grade := grade ++ [smogIndex text] in
  let grade := grade ++ [colemanLiauIndex text] in
  let grade := grade ++ [automatedReadabilityIndex text] in
  let grade := grade ++ [daleChallToGrade (daleChallReadabilityScore text)] in
  let grade := grade ++ [linsearWriteFormula text] in
  let grade := grade ++ [gunningFog text] in
  grade.

(** The median rule of lines 550-554, on the sorted array; [None] is
    [undefined], which arithmetic reads as NaN. *)
Definition median_rule (grade : list number) : option number :=
  let half := Z.of_nat (length grade) / 2 in
  if negb (Z.land half 1 =? 0) then
    let a := default Num.NaN (at_index grade (half - 1)) in
    let b := default Num.NaN (at_index grade half) in
    Some ((a + b) / of_Z 2)%num
  else at_index grade half.

(** [textMedian] (lines 522-555). *)
Definition textMedian (text : jsstring) : option number :=
  let grade := textMedian_grade text in
  let grade := Array_sort Num.sub grade in
  median_rule grade.

(** ** Properties *)

(** *** Numbers without a sign to copy *)

Lemma add_NaN_r (x : number) : (x + Num.NaN)%num = Num.NaN.
Proof. destruct x; reflexivity. Qed.

Lemma mul_NaN_r (x : number) : (x * Num.NaN)%num = Num.NaN.
Proof. destruct x; reflexivity. Qed.

Lemma sub_NaN_r (x : number) : (x - Num.NaN)%num = Num.NaN.
Proof. destruct x; reflexivity. Qed.

Lemma div_NaN_r (x : number) : (x / Num.NaN)%num = Num.NaN.
Proof. destruct x; reflexivity. Qed.

Lemma copySign_degenerate (x y : number) :
  degenerate y = true -> copySign x y = Num.NaN.
Proof.
  unfold copySign.
  destruct y as [[|]|[|]| |s m e]; try discriminate; intros _; apply mul_NaN_r.
Qed.

Lemma legacyRound_degenerate (x : number) (points : nat) :
  degenerate x = true -> legacyRound x points = Num.NaN.
Proof.
  intros Hx. unfold legacyRound.
  rewrite (copySign_degenerate _ _ Hx), add_NaN_r. reflexivity.
Qed.

Lemma div_zero_degenerate (x : number) (s : bool) :
  degenerate (x / S754_zero s)%num = true.
Proof. destruct x; reflexivity. Qed.

Lemma zero_div_degenerate (s : bool) (y : number) :
  degenerate (S754_zero s / y)%num = true.
Proof. destruct y; reflexivity. Qed.

(** A guarded rounding: what every average does with its ratio. *)
Lemma guard_degenerate (x : number) (points : nat) :
  degenerate x = true ->
  (let returnVal := legacyRound x points in
   if negb (isNaN returnVal) then returnVal else Num.zero) = Num.zero.
Proof. intros Hx. cbv zeta. rewrite (legacyRound_degenerate _ _ Hx). reflexivity. Qed.

(** *** Rounding *)

(** C10. For every precision [n], [legacyRound(0, n)] is NaN rather than 0:
    [copySign(0.5, 0)] multiplies by [0 / |0|], a zero divided by a zero. On a
    text without a word the five averages still return [0.0], and only
    through their [isNaN] guard: the rounded ratio each of them tests is
    NaN. *)
Theorem legacyRound_zero_is_NaN :
  (forall s, (S754_zero s / Num.abs (S754_zero s))%num = Num.NaN) /\
  (forall s, copySign (dec 5 1) (S754_zero s) = Num.NaN) /\
  (forall s points, legacyRound (S754_zero s) points = Num.NaN) /\
  (forall text, lexiconCount text true = 0 ->
     let words := of_Z (lexiconCount text true) in
     (legacyRound (words / of_Z (sentenceCount text))%num 1 = Num.NaN
      /\ averageSentenceLength text = Num.zero) /\
     (legacyRound (of_Z (syllableCount text) / words)%num 1 = Num.NaN
      /\ averageSyllablePerWord text = Num.zero) /\
     (legacyRound (of_Z (charCount text true) / words)%num 2 = Num.NaN
      /\ averageCharacterPerWord text = Num.zero) /\
     (legacyRound (of_Z (letterCount text true) / words)%num 2 = Num.NaN
      /\ averageLetterPerWord text = Num.zero) /\
     (legacyRound (of_Z (sentenceCount text) / words)%num 2 = Num.NaN
      /\ averageSentencePerWord text = Num.zero)).
Proof.
  split; [intros [|]; reflexivity|].
  split; [intros s; now apply copySign_degenerate|].
  split; [intros s points; now apply legacyRound_degenerate|].
  intros text Hwords. cbv zeta.
  unfold averageSentenceLength, averageSyllablePerWord, averageCharacterPerWord,
    averageLetterPerWord, averageSentencePerWord.
  rewrite Hwords. change (of_Z 0) with (S754_zero false).
  repeat split;
    first [ apply legacyRound_degenerate | apply guard_degenerate ];
    first [ apply div_zero_degenerate | apply zero_div_degenerate ].
Qed.

(** C5, at the failing input. Scaling by [10^n], adding [sign(x) * 0.5] and
    flooring rounds half away from zero on the positive side
    ([legacyRound(2.345, 2)] is [2.35]), but [Math.floor] moves a negative
    number away from zero once more: [legacyRound(-2.345, 2)] is [-2.36], not
    [-2.35], and rounding is not idempotent ([-2.3] goes to [-2.31], which
    goes to [-2.32]). At zero decimals the integers 1 to 100 are left as
    they are, while each of -1 to -100 is taken to the integer below it. *)
Theorem legacyRound_negative_half :
  legacyRound (dec 2345 3) 2 = dec 235 2 /\
  legacyRound (- dec 2345 3)%num 2 = (- dec 236 2)%num /\
  (legacyRound (- dec 2345 3)%num 2 === (- dec 235 2))%num = false /\
  legacyRound (- dec 23 1)%num 2 = (- dec 231 2)%num /\
  legacyRound (legacyRound (- dec 23 1)%num 2) 2 = (- dec 232 2)%num /\
  (legacyRound (legacyRound (- dec 23 1)%num 2) 2
   === legacyRound (- dec 23 1)%num 2)%num = false /\
  legacyRound (- of_Z 1)%num 0 = (- of_Z 2)%num /\
  Forall (fun z => legacyRound (of_Z z) 0 = of_Z z)
    (map (fun i => Z.of_nat i + 1) (seq 0 100)) /\
  Forall (fun z => legacyRound (of_Z z) 0 = of_Z (z - 1))
    (map (fun i => - Z.of_nat i - 1) (seq 0 100)).
Proof.
  do 7 (split; [vm_compute; reflexivity|]).
  split; apply (bool_decide_unpack _); vm_compute; exact I.
Qed.

(** *** Ordinal suffix *)

Lemma eqb_finite (x : number) (s : bool) (m : positive) (e : Z) :
  (x === S754_finite s m e)%num = true -> x = S754_finite s m e.
Proof.
  unfold Num.eqb, SFeqb.
  destruct x as [s'|s'| |s' m' e']; try destruct s'; destruct s; cbn;
    try discriminate;
    destruct (Z.compare_spec e' e) as [->| |]; try discriminate;
    change (Pos.compare_cont Eq m' m) with (m' ?= m)%positive;
    destruct (Pos.compare_spec m' m) as [->| |]; try discriminate;
    reflexivity.
Qed.

Lemma find_gradeMap (grade : number) :
  getGradeSuffix grade =
    if (Num.floor grade === of_Z 1)%num then str "st"
    else if (Num.floor grade === of_Z 2)%num then str "nd"
    else if (Num.floor grade === of_Z 3)%num then str "rd"
    else str "th".
Proof.
  unfold getGradeSuffix, gradeMap. cbn [List.find fst snd].
  destruct (Num.floor grade === of_Z 1)%num; [reflexivity|].
  destruct (Num.floor grade === of_Z 2)%num; [reflexivity|].
  destruct (Num.floor grade === of_Z 3)%num; reflexivity.
Qed.

(** C8. [getGradeSuffix] floors its argument and answers st, nd, rd exactly
    when the floored grade is 1, 2, 3, and th for every other value: so for
    4 and for 21, and for every integer from 4 to 200 and from -200 to 0 (11
    to 13 and 21 to 23 among them). *)
Theorem getGradeSuffix_only_1_2_3 :
  (forall grade,
     (getGradeSuffix grade = str "st" <-> (Num.floor grade === of_Z 1)%num = true) /\
     (getGradeSuffix grade = str "nd" <-> (Num.floor grade === of_Z 2)%num = true) /\
     (getGradeSuffix grade = str "rd" <-> (Num.floor grade === of_Z 3)%num = true) /\
     (getGradeSuffix grade = str "th" <->
        (Num.floor grade === of_Z 1)%num = false /\
        (Num.floor grade === of_Z 2)%num = false /\
        (Num.floor grade === of_Z 3)%num = false)) /\
  map getGradeSuffix [of_Z 1; of_Z 2; of_Z 3; of_Z 4; of_Z 21]
    = [str "st"; str "nd"; str "rd"; str "th"; str "th"] /\
  map getGradeSuffix [dec 19 1; dec 25 1; dec 399 2]
    = [str "st"; str "nd"; str "rd"] /\
  Forall (fun z => getGradeSuffix (of_Z z) = str "th")
    (map (fun i => Z.of_nat i + 4) (seq 0 197)) /\
  Forall (fun z => getGradeSuffix (of_Z z) = str "th")
    (map (fun i => - Z.of_nat i) (seq 0 201)).
Proof.
  split.
  { intros grade. rewrite find_gradeMap.
    destruct (Num.floor grade === of_Z 1)%num eqn:H1;
      destruct (Num.floor grade === of_Z 2)%num eqn:H2;
      destruct (Num.floor grade === of_Z 3)%num eqn:H3;
      try (apply (eqb_finite _ false 4503599627370496 (-52)) in H1);
      try (apply (eqb_finite _ false 4503599627370496 (-51)) in H2);
      try (apply (eqb_finite _ false 6755399441055744 (-51)) in H3);
      try congruence;
      vm_compute; intuition congruence. }
  split; [vm_compute; reflexivity|].
  split; [vm_compute; reflexivity|].
  split; apply (bool_decide_unpack _); vm_compute; exact I.
Qed.

(** *** Tokenizer *)

Lemma split_on_word (word : jsstring) :
  forallb (fun c => negb (wordSeparator c)) word = true ->
  split_on wordSeparator word = [word].
Proof.
  induction word as [|c word IH]; cbn [forallb split_on]; [reflexivity|].
  intros H. apply andb_prop in H as [Hc Hword].
  apply negb_true_iff in Hc. now rewrite Hc, (IH Hword).
Qed.

Lemma split_on_app (word rest : jsstring) (c : N) :
  forallb (fun c => negb (wordSeparator c)) word = true ->
  wordSeparator c = true ->
  split_on wordSeparator (word ++ c :: rest) = word :: split_on wordSeparator rest.
Proof.
  intros Hword Hc.
  induction word as [|d word IH]; cbn [app split_on forallb] in *.
  - now rewrite Hc.
  - apply andb_prop in Hword as [Hd Hword].
    apply negb_true_iff in Hd. now rewrite Hd, (IH Hword).
Qed.

Lemma removePunctuation_letters (word : jsstring) :
  forallb (fun c => negb (punctuationRE c)) word = true ->
  removePunctuation word = word.
Proof.
  unfold removePunctuation.
  induction word as [|c word IH]; cbn [forallb List.filter]; [reflexivity|].
  intros H. apply andb_prop in H as [Hc Hword]. now rewrite Hc, (IH Hword).
Qed.

(** Two words joined by a comma alone are one token once punctuation is
    removed, and two when it is kept. *)
Lemma comma_joins_words (a b : jsstring) :
  a <> [] -> b <> [] ->
  forallb (fun c => negb (wordSeparator c)) (a ++ b) = true ->
  forallb (fun c => negb (punctuationRE c)) (a ++ b) = true ->
  lexiconCount (a ++ 44%N :: b) true = 1 /\ lexiconCount (a ++ 44%N :: b) false = 2.
Proof.
  intros Ha Hb Hsep Hpunct. unfold lexiconCount. split.
  - replace (removePunctuation (a ++ 44%N :: b)) with (a ++ b).
    + rewrite (split_on_word _ Hsep). destruct a; [congruence|reflexivity].
    + rewrite forallb_app in Hpunct. apply andb_prop in Hpunct as [Hpa Hpb].
      unfold removePunctuation. rewrite List.filter_app. cbn [List.filter].
      change (negb (punctuationRE 44)) with false. cbv iota.
      fold (removePunctuation a). fold (removePunctuation b).
      now rewrite (removePunctuation_letters _ Hpa), (removePunctuation_letters _ Hpb).
  - rewrite forallb_app in Hsep. apply andb_prop in Hsep as [Hsa Hsb].
    rewrite (split_on_app a b 44%N Hsa eq_refl), (split_on_word _ Hsb).
    destruct a; [congruence|]. destruct b; [congruence|]. reflexivity.
Qed.

(** C9. The comma is both a member of the punctuation class and a word
    separator, and [lexiconCount] strips punctuation before it splits: the
    two words of the text a,b collapse into one token when punctuation is
    removed (the default) and stay two when it is kept. *)
Theorem lexiconCount_comma_collapse :
  punctuationRE 44 = true /\ wordSeparator 44 = true /\
  exists text,
    text = str "a,b" /\
    removePunctuation text = str "ab" /\
    lexiconCount text true = 1 /\ lexiconCount text false = 2.
Proof.
  split; [reflexivity|]. split; [reflexivity|].
  exists (str "a,b"). repeat split.
Qed.

Lemma fold_left_count {A} (P : A -> bool) (l : list A) (n : Z) :
  fold_left (fun count x => if P x then count + 1 else count) l n
  = n + Z.of_nat (length (List.filter P l)).
Proof.
  revert n. induction l as [|x l IH]; intros n; cbn [fold_left List.filter].
  - cbn. lia.
  - rewrite IH. destruct (P x); cbn [length]; lia.
Qed.

Lemma filter_length_split {A} (P : A -> bool) (l : list A) :
  length l
  = (length (List.filter P l) + length (List.filter (fun x => negb (P x)) l))%nat.
Proof.
  induction l as [|x l IH]; cbn [List.filter length]; [reflexivity|].
  destruct (P x); cbn [negb length]; lia.
Qed.

(** C7. [sentenceCount] is the number of pieces of the sentence split whose
    word count exceeds 2, floored at 1; so it is at least 1 for every text. *)
Theorem sentenceCount_at_least_1 (text : jsstring) :
  sentenceCount text
  = Z.max 1
      (Z.of_nat
         (length
            (List.filter (fun sentence => lexiconCount sentence true >? 2)
               (splitSentences text))))
  /\ sentenceCount text >= 1.
Proof.
  assert (Hcount :
    sentenceCount text
    = Z.max 1
        (Z.of_nat
           (length
              (List.filter (fun sentence => lexiconCount sentence true >? 2)
                 (splitSentences text))))).
  { unfold sentenceCount. cbv zeta.
    rewrite (fold_left_count (fun sentence => lexiconCount sentence true <=? 2)).
    pose proof (filter_length_split
                  (fun sentence => lexiconCount sentence true <=? 2)
                  (splitSentences text)) as Hlen.
    rewrite (filter_ext (fun x => negb (lexiconCount x true <=? 2))
               (fun x => lexiconCount x true >? 2)) in Hlen.
    2: { intros x. rewrite Z.gtb_ltb, Z.leb_antisym, negb_involutive. reflexivity. }
    match goal with |- context [?a >? 1] => destruct (Z.gtb_spec a 1) end; lia. }
  split; [exact Hcount|]. rewrite Hcount. lia.
Qed.

(** *** Texts made of blank characters *)

Lemma blank_cases (c : N) : blank c = true -> c = 32%N \/ c = 10%N \/ c = 13%N.
Proof.
  unfold blank, elem. cbn [existsb].
  destruct (N.eqb_spec c 32); [tauto|].
  destruct (N.eqb_spec c 10); [tauto|].
  destruct (N.eqb_spec c 13); [tauto|discriminate].
Qed.

Lemma blank_classes (c : N) :
  blank c = true ->
  punctuationRE c = false /\ wordSeparator c = true /\ wordChar c = false
  /\ elem c (str ".?!") = false.
Proof. intros H. destruct (blank_cases c H) as [->|[->| ->]]; repeat split. Qed.

Lemma removePunctuation_blank (text : jsstring) :
  forallb blank text = true -> removePunctuation text = text.
Proof.
  induction text as [|c text IH]; cbn [forallb]; [reflexivity|].
  intros [Hc Htext]%andb_prop. unfold removePunctuation in *.
  cbn [List.filter]. destruct (blank_classes c Hc) as (-> & _).
  cbn [negb]. now rewrite IH.
Qed.

Lemma split_on_separators (text : jsstring) :
  forallb wordSeparator text = true ->
  List.filter truthy (split_on wordSeparator text) = [].
Proof.
  induction text as [|c text IH]; cbn [forallb split_on]; [reflexivity|].
  intros [-> Htext]%andb_prop. cbn [List.filter truthy]. now apply IH.
Qed.

Lemma forallb_blank_separators (text : jsstring) :
  forallb blank text = true -> forallb wordSeparator text = true.
Proof.
  intros H. apply forallb_forall. intros c Hc.
  apply (proj1 (forallb_forall _ _) H), blank_classes in Hc. tauto.
Qed.

Lemma lexiconCount_blank (text : jsstring) :
  forallb blank text = true -> lexiconCount text true = 0.
Proof.
  intros H. unfold lexiconCount.
  rewrite (removePunctuation_blank _ H),
    (split_on_separators _ (forallb_blank_separators _ H)).
  reflexivity.
Qed.

Lemma match_runs_none (p : N -> bool) (text : jsstring) :
  forallb (fun c => negb (p c)) text = true -> match_runs p [] text = [].
Proof.
  induction text as [|c text IH]; cbn [forallb match_runs truthy]; [reflexivity|].
  intros [Hc Htext]%andb_prop. apply negb_true_iff in Hc. rewrite Hc. now apply IH.
Qed.

Lemma difficultWords_blank (text : jsstring) (syllableThreshold : Z) :
  forallb blank text = true -> difficultWords text syllableThreshold = 0.
Proof.
  intros H. unfold difficultWords, matchAll.
  rewrite match_runs_none; [reflexivity|].
  apply forallb_forall. intros c Hc.
  apply (proj1 (forallb_forall _ _) H), blank_classes in Hc.
  destruct Hc as (_ & _ & -> & _). reflexivity.
Qed.

Lemma skip_while_forallb (p q : N -> bool) (text : jsstring) :
  forallb q text = true -> forallb q (snd (skip_while p text)) = true.
Proof.
  induction text as [|c text IH]; cbn [skip_while forallb snd]; [reflexivity|].
  intros H. destruct (p c).
  - apply andb_prop in H as [_ H]. specialize (IH H).
    destruct (skip_while p text). exact IH.
  - exact H.
Qed.

Lemma sentenceBoundary_blank (text : jsstring) :
  forallb blank text = true -> sentenceBoundary text = None.
Proof.
  intros H. unfold sentenceBoundary.
  pose proof (skip_while_forallb (fun c => (c =? 32)%N) blank text H) as Htail.
  destruct (skip_while _ text) as [spaces [|mark t2]]; [reflexivity|].
  cbn [snd forallb] in Htail. apply andb_prop in Htail as [Hmark _].
  destruct (blank_classes mark Hmark) as (_ & _ & _ & ->). reflexivity.
Qed.

Lemma splitSentences_blank (text : jsstring) :
  forallb blank text = true -> splitSentences text = [text].
Proof.
  unfold splitSentences.
  induction text as [|c text IH]; [reflexivity|].
  intros H. cbn [splitSentences_from].
  rewrite (sentenceBoundary_blank _ H).
  cbn [forallb] in H. apply andb_prop in H as [_ H]. now rewrite (IH H).
Qed.

Lemma sentenceCount_blank (text : jsstring) :
  forallb blank text = true -> sentenceCount text = 1.
Proof.
  intros H. unfold sentenceCount.
  rewrite (splitSentences_blank _ H). cbn [fold_left length].
  rewrite (lexiconCount_blank _ H). reflexivity.
Qed.

Lemma averageSentenceLength_no_word (text : jsstring) :
  lexiconCount text true = 0 -> averageSentenceLength text = Num.zero.
Proof.
  intros H. unfold averageSentenceLength. rewrite H.
  apply guard_degenerate, zero_div_degenerate.
Qed.

Lemma averageSyllablePerWord_no_word (text : jsstring) :
  lexiconCount text true = 0 -> averageSyllablePerWord text = Num.zero.
Proof.
  intros H. unfold averageSyllablePerWord. rewrite H.
  apply guard_degenerate, div_zero_degenerate.
Qed.

Lemma averagePerWord_no_word (text : jsstring) :
  lexiconCount text true = 0 ->
  averageCharacterPerWord text = Num.zero /\
  averageLetterPerWord text = Num.zero /\
  averageSentencePerWord text = Num.zero.
Proof.
  intros H.
  unfold averageCharacterPerWord, averageLetterPerWord, averageSentencePerWord.
  rewrite H. repeat split; apply guard_degenerate, div_zero_degenerate.
Qed.

(** C1, as the code has it. On the empty text, and on any text made of
    spaces, newlines and carriage returns, the five averages return [0.0]
    through their [isNaN] guard, and so do the formulas that test their
    result: [gunningFog], [automatedReadabilityIndex],
    [daleChallReadabilityScore] (which tests its ratio) and [smogIndex]
    (fewer than three sentences). [fleschReadingEase] has no guard and no
    division of its own: with both of its averages at [0.0] it returns its
    constant term rounded, [206.84]. *)
Theorem blank_text_guarded_formulas (text : jsstring) :
  forallb blank text = true ->
  averageSentenceLength text = Num.zero /\
  averageSyllablePerWord text = Num.zero /\
  averageCharacterPerWord text = Num.zero /\
  averageLetterPerWord text = Num.zero /\
  averageSentencePerWord text = Num.zero /\
  gunningFog text = Num.zero /\
  daleChallReadabilityScore text = Num.zero /\
  automatedReadabilityIndex text = Num.zero /\
  smogIndex text = Num.zero /\
  fleschReadingEase text = dec 20684 2.
Proof.
  intros H.
  pose proof (lexiconCount_blank _ H) as Hwords.
  pose proof (averageSentenceLength_no_word _ Hwords) as Hasl.
  pose proof (averageSyllablePerWord_no_word _ Hwords) as Hasw.
  destruct (averagePerWord_no_word _ Hwords) as (Hchar & Hletter & Hsent).
  repeat split; try assumption.
  - unfold gunningFog.
    rewrite Hasl, Hwords, (difficultWords_blank _ _ H). reflexivity.
  - unfold daleChallReadabilityScore.
    rewrite Hwords, (difficultWords_blank _ _ H). reflexivity.
  - unfold automatedReadabilityIndex. cbv zeta. rewrite Hwords.
    change (of_Z 0) with (S754_zero false).
    rewrite (legacyRound_degenerate _ 2 (div_zero_degenerate _ false)).
    rewrite mul_NaN_r. reflexivity.
  - unfold smogIndex. rewrite (sentenceCount_blank _ H). reflexivity.
  - unfold fleschReadingEase. rewrite Hasl, Hasw. vm_compute. reflexivity.
Qed.

(** *** Difficult words *)

Lemma isDifficult_antitone (t1 t2 : Z) (word : jsstring) :
  t1 <= t2 -> isDifficult t2 word = true -> isDifficult t1 word = true.
Proof.
  unfold isDifficult. intros Ht H. apply andb_prop in H as [Heasy Hsyll].
  rewrite Heasy. cbn [andb]. apply Z.geb_le. apply Z.geb_le in Hsyll. lia.
Qed.

Lemma diffWordsSet_antitone (t1 t2 : Z) (textList : list jsstring)
    (low high : gset jsstring) :
  t1 <= t2 -> high ⊆ low ->
  fold_left
    (fun (diffWordsSet : gset jsstring) word =>
       if isDifficult t2 word then {[word]} ∪ diffWordsSet else diffWordsSet)
    textList high
  ⊆ fold_left
      (fun (diffWordsSet : gset jsstring) word =>
         if isDifficult t1 word then {[word]} ∪ diffWordsSet else diffWordsSet)
      textList low.
Proof.
  intros Ht. revert low high.
  induction textList as [|word textList IH]; intros low high Hsub;
    cbn [fold_left]; [exact Hsub|].
  apply IH.
  destruct (isDifficult t2 word) eqn:H2.
  - rewrite (isDifficult_antitone t1 t2 word Ht H2). now apply union_mono_l.
  - destruct (isDifficult t1 word); [now apply union_subseteq_r'|exact Hsub].
Qed.

(** C4, as the code has it. A word is counted when its syllable count is at
    least the threshold, so raising the threshold never adds a word:
    [difficultWords(text, t)] is non-increasing in [t] (for the thresholds 2,
    3, 4 as for any others). *)
Theorem difficultWords_antitone (text : jsstring) (t1 t2 : Z) :
  t1 <= t2 -> difficultWords text t2 <= difficultWords text t1.
Proof.
  intros Ht. unfold difficultWords.
  destruct (matchAll wordChar text) as [textList|]; [|lia].
  apply Nat2Z.inj_le, subseteq_size, diffWordsSet_antitone; [exact Ht|set_solver].
Qed.

(** *** Present tense *)

Lemma endsWith_app (stem suffix : jsstring) :
  endsWith (stem ++ suffix) suffix = true.
Proof.
  unfold endsWith. rewrite length_app.
  replace (length stem + length suffix - length suffix)%nat with (length stem) by lia.
  rewrite drop_app_length, bool_decide_eq_true_2 by reflexivity.
  rewrite andb_true_r. apply Nat.leb_le. lia.
Qed.

Lemma slice_end_app (stem suffix : jsstring) :
  slice_end (stem ++ suffix) (length suffix) = stem.
Proof.
  unfold slice_end. rewrite length_app.
  replace (length stem + length suffix - length suffix)%nat with (length stem) by lia.
  apply take_app_length.
Qed.

Lemma endsWith_other (stem suffix other : jsstring) :
  length other = length suffix -> other <> suffix ->
  endsWith (stem ++ other) suffix = false.
Proof.
  intros Hlen Hne. unfold endsWith. rewrite length_app, <- Hlen.
  replace (length stem + length other - length other)%nat with (length stem) by lia.
  rewrite drop_app_length, bool_decide_eq_false_2 by exact Hne.
  apply andb_false_r.
Qed.

Lemma presentTense_ing (stem : jsstring) :
  (6 <= length (stem ++ str "ing"))%nat ->
  presentTense (stem ++ str "ing")
  = if bool_decide (stem ++ str "e" ∈ easyWordSet) then stem ++ str "e" else stem.
Proof.
  intros Hlen. unfold presentTense.
  replace (length (stem ++ str "ing") <? 6)%nat with false
    by (symmetry; apply Nat.ltb_ge; exact Hlen).
  replace (endsWith (stem ++ str "ing") (str "ed")) with false.
  2: { symmetry. change (str "ing") with (str "i" ++ str "ng").
       rewrite app_assoc. apply endsWith_other; [reflexivity|discriminate]. }
  rewrite endsWith_app.
  change 3%nat with (length (str "ing")). rewrite slice_end_app. reflexivity.
Qed.

Lemma presentTense_ed (stem : jsstring) :
  (6 <= length (stem ++ str "ed"))%nat ->
  presentTense (stem ++ str "ed")
  = if bool_decide (stem ++ str "e" ∈ easyWordSet) then stem ++ str "e" else stem.
Proof.
  intros Hlen. unfold presentTense.
  replace (length (stem ++ str "ed") <? 6)%nat with false
    by (symmetry; apply Nat.ltb_ge; exact Hlen).
  rewrite endsWith_app.
  change 2%nat with (length (str "ed")). rewrite slice_end_app.
  replace (slice_end (stem ++ str "ed") 1) with (stem ++ str "e"); [reflexivity|].
  change (str "ed") with (str "e" ++ str "d"). rewrite app_assoc.
  change 1%nat with (length (str "d")). now rewrite slice_end_app.
Qed.

(** C6, as the code has it. A word shorter than six characters is returned
    unchanged before any suffix is looked at, so [presentTense] of liked is
    liked, whatever the dictionary holds. A longer word ending in ing gives
    the stem with an e when the dictionary has that form and the bare stem
    otherwise (eating gives eat unless the dictionary has eate); a longer
    word ending in ed does the same with its own stem; every other word is
    returned unchanged. *)
Theorem presentTense_branches :
  (forall word, (length word < 6)%nat -> presentTense word = word) /\
  presentTense (str "liked") = str "liked" /\
  (forall stem, (6 <= length (stem ++ str "ing"))%nat ->
     presentTense (stem ++ str "ing")
     = if bool_decide (stem ++ str "e" ∈ easyWordSet) then stem ++ str "e"
       else stem) /\
  (forall stem, (6 <= length (stem ++ str "ed"))%nat ->
     presentTense (stem ++ str "ed")
     = if bool_decide (stem ++ str "e" ∈ easyWordSet) then stem ++ str "e"
       else stem) /\
  (str "eate" ∉ easyWordSet -> presentTense (str "eating") = str "eat") /\
  (forall word,
     endsWith word (str "ed") = false -> endsWith word (str "ing") = false ->
     presentTense word = word).
Proof.
  split.
  { intros word Hlen. unfold presentTense.
    now replace (length word <? 6)%nat with true by (symmetry; apply Nat.ltb_lt; exact Hlen). }
  split; [reflexivity|].
  split; [exact presentTense_ing|].
  split; [exact presentTense_ed|].
  split.
  { intros Hnot. change (str "eating") with (str "eat" ++ str "ing").
    rewrite presentTense_ing by (cbn; lia).
    now rewrite bool_decide_eq_false_2 by exact Hnot. }
  intros word Hed Hing. unfold presentTense. rewrite Hed, Hing.
  now destruct (length word <? 6)%nat.
Qed.

(** *** The vote of [textStandard] *)

Lemma eqb_refl (x : number) : isNaN x = false -> (x === x)%num = true.
Proof.
  unfold Num.eqb, SFeqb.
  destruct x as [s|s| |s m e]; try destruct s; cbn; try discriminate;
    intros _; try reflexivity;
    rewrite Z.compare_refl;
    change (Pos.compare_cont Eq m m) with (m ?= m)%positive;
    rewrite Pos.compare_refl; reflexivity.
Qed.

Lemma eqb_sym (x y : number) : (x === y)%num = (y === x)%num.
Proof.
  destruct x as [[|]|[|]| |sx mx ex], y as [[|]|[|]| |sy my ey]; try reflexivity;
    try (destruct sx; reflexivity); try (destruct sy; reflexivity).
  destruct (S754_finite sx mx ex === S754_finite sy my ey)%num eqn:Hxy.
  - apply eqb_finite in Hxy. rewrite Hxy. symmetry. now apply eqb_refl.
  - destruct (S754_finite sy my ey === S754_finite sx mx ex)%num eqn:Hyx;
      [|reflexivity].
    apply eqb_finite in Hyx. rewrite Hyx, eqb_refl in Hxy by reflexivity.
    discriminate.
Qed.

Lemma sameValueZero_sym (x y : number) : sameValueZero x y = sameValueZero y x.
Proof. unfold sameValueZero. now rewrite eqb_sym, (andb_comm (isNaN x)). Qed.

Lemma sameValueZero_stored_r (x y : number) :
  sameValueZero y (Set_stored x) = sameValueZero y x.
Proof. destruct x as [[|]|s| |s m e]; try reflexivity; now destruct y as [[|]|[|]| |[|] ? ?]. Qed.

Lemma sameValueZero_stored (x : number) : sameValueZero x (Set_stored x) = true.
Proof.
  rewrite sameValueZero_stored_r. unfold sameValueZero.
  destruct (isNaN x) eqn:Hx; [reflexivity|]. now rewrite eqb_refl.
Qed.

Lemma ForallOrdPairs_snoc {A} (R : A -> A -> Prop) (l : list A) (v : A) :
  ForallOrdPairs R l -> Forall (fun a => R a v) l -> ForallOrdPairs R (l ++ [v]).
Proof.
  induction 1 as [|a l Ha Hl IH]; intros Hv; cbn [app].
  - repeat constructor.
  - apply Forall_cons in Hv as [Hav Hv]. constructor; [|now apply IH].
    apply Forall_app. split; [exact Ha|]. now constructor.
Qed.

Lemma Set_add_distinct (set : list number) (x : number) :
  ForallOrdPairs (fun a b => sameValueZero a b = false) set ->
  ForallOrdPairs (fun a b => sameValueZero a b = false) (Set_add set x).
Proof.
  intros Hset. unfold Set_add.
  destruct (existsb (sameValueZero x) set) eqn:Hx; [exact Hset|].
  apply ForallOrdPairs_snoc; [exact Hset|].
  apply Forall_forall. intros a Ha.
  rewrite sameValueZero_stored_r, sameValueZero_sym.
  destruct (sameValueZero x a) eqn:Hxa; [|reflexivity].
  assert (existsb (sameValueZero x) set = true); [|congruence].
  apply existsb_exists. exists a. split; [now apply list_elem_of_In|exact Hxa].
Qed.

Lemma Set_of_distinct (values : list number) :
  ForallOrdPairs (fun a b => sameValueZero a b = false) (Set_of values).
Proof.
  unfold Set_of.
  assert (Hgen : forall set,
            ForallOrdPairs (fun a b => sameValueZero a b = false) set ->
            ForallOrdPairs (fun a b => sameValueZero a b = false)
              (fold_left Set_add values set)).
  { induction values as [|x values IH]; intros set Hset; cbn [fold_left];
      [exact Hset|].
    now apply IH, Set_add_distinct. }
  apply Hgen. constructor.
Qed.

Lemma Set_add_keeps (set : list number) (x v : number) :
  existsb (sameValueZero v) set = true ->
  existsb (sameValueZero v) (Set_add set x) = true.
Proof.
  intros H. unfold Set_add. destruct (existsb (sameValueZero x) set); [exact H|].
  rewrite existsb_app, H. reflexivity.
Qed.

Lemma Set_add_holds (set : list number) (x : number) :
  existsb (sameValueZero x) (Set_add set x) = true.
Proof.
  unfold Set_add. destruct (existsb (sameValueZero x) set) eqn:H; [exact H|].
  rewrite existsb_app. cbn [existsb]. rewrite sameValueZero_stored.
  now rewrite orb_true_r.
Qed.

Lemma Set_of_complete (values : list number) :
  Forall (fun v => existsb (sameValueZero v) (Set_of values) = true) values.
Proof.
  unfold Set_of.
  assert (Hgen : forall set v,
            existsb (sameValueZero v) set = true \/ In v values ->
            existsb (sameValueZero v) (fold_left Set_add values set) = true).
  { induction values as [|x values IH]; intros set v [H|H]; cbn [fold_left].
    - exact H.
    - destruct H.
    - apply IH. left. now apply Set_add_keeps.
    - apply IH. destruct H as [->|H]; [left; apply Set_add_holds|now right]. }
  apply Forall_forall. intros v Hv. apply Hgen. right.
  now apply list_elem_of_In.
Qed.

(** [===] is a congruence for [===]. *)
Lemma eqb_congr (v x y : number) :
  (v === x)%num = true -> (y === v)%num = (y === x)%num.
Proof.
  intros H.
  destruct x as [sx|sx| |sx mx ex].
  - destruct v as [sv|sv| |sv mv ev]; try discriminate;
      try (destruct sv; discriminate).
    destruct y as [sy|sy| |sy my ey]; reflexivity.
  - destruct v as [sv|sv| |sv mv ev]; try discriminate;
      try (destruct sv, sx; discriminate).
    destruct sv, sx; try discriminate; reflexivity.
  - destruct v; discriminate.
  - apply eqb_finite in H. now subst v.
Qed.

Lemma sameValueZero_trans (x y z : number) :
  sameValueZero x y = true -> sameValueZero y z = true ->
  sameValueZero x z = true.
Proof.
  unfold sameValueZero. intros Hxy Hyz.
  apply orb_prop in Hxy as [Hxy|Hxy].
  - apply andb_prop in Hxy as [Hx Hy].
    destruct y; try discriminate. destruct z; try discriminate.
    now rewrite Hx.
  - apply orb_prop in Hyz as [Hyz|Hyz].
    + apply andb_prop in Hyz as [Hy _]. destruct y; try discriminate.
      destruct x; discriminate.
    + rewrite (eqb_congr y z x Hyz) in Hxy. rewrite Hxy. apply orb_true_r.
Qed.

Lemma first_index_le (x : number) (values : list number) :
  (first_index x values <= length values)%nat.
Proof.
  induction values as [|v values IH]; cbn [first_index length]; [lia|].
  destruct (sameValueZero v x); lia.
Qed.

Lemma first_index_app_lt (x : number) (done more : list number) :
  (first_index x done < length done)%nat ->
  first_index x (done ++ more) = first_index x done.
Proof.
  induction done as [|v done IH]; cbn [first_index length app]; [lia|].
  destruct (sameValueZero v x); [reflexivity|]. intros H. rewrite IH; lia.
Qed.

Lemma first_index_app_none (x : number) (done more : list number) :
  Forall (fun v => sameValueZero v x = false) done ->
  first_index x (done ++ more) = (length done + first_index x more)%nat.
Proof.
  induction 1 as [|v done Hv Hdone IH]; cbn [first_index length app];
    [reflexivity|].
  rewrite Hv, IH. reflexivity.
Qed.

Lemma Set_add_first_seen (done set : list number) (x : number) :
  first_seen done set -> first_seen (done ++ [x]) (Set_add set x).
Proof.
  intros (Hsorted & Hbound & Hcomplete).
  assert (Hsame : map (fun y => first_index y (done ++ [x])) set
                  = map (fun y => first_index y done) set).
  { apply map_ext_in. intros y Hy. apply first_index_app_lt.
    apply (proj1 (Forall_forall _ _) Hbound). now apply list_elem_of_In. }
  assert (Hbound' : Forall (fun y => (first_index y (done ++ [x])
                                      < length (done ++ [x]))%nat) set).
  { eapply Forall_impl; [exact Hbound|]. intros y Hy. cbv beta in Hy |- *.
    rewrite first_index_app_lt by exact Hy. rewrite length_app.
    cbn [length]. lia. }
  unfold Set_add. destruct (existsb (sameValueZero x) set) eqn:Hx.
  - split; [now rewrite Hsame|]. split; [exact Hbound'|].
    apply Forall_app. split; [exact Hcomplete|]. now repeat constructor.
  - assert (Hnew : Forall (fun v => sameValueZero v (Set_stored x) = false) done).
    { apply Forall_forall. intros v Hv.
      destruct (sameValueZero v (Set_stored x)) eqn:Hvx; [|reflexivity].
      rewrite sameValueZero_stored_r in Hvx.
      pose proof (proj1 (Forall_forall _ _) Hcomplete v Hv) as Hset.
      apply existsb_exists in Hset as (y & Hy & Hvy).
      assert (existsb (sameValueZero x) set = true); [|congruence].
      apply existsb_exists. exists y. split; [exact Hy|].
      rewrite sameValueZero_sym in Hvx.
      exact (sameValueZero_trans _ _ _ Hvx Hvy). }
    assert (Hindex : first_index (Set_stored x) (done ++ [x]) = length done).
    { rewrite (first_index_app_none _ _ _ Hnew). cbn [first_index].
      rewrite sameValueZero_stored. lia. }
    split; [|split].
    + rewrite map_app, Hsame. cbn [map]. rewrite Hindex.
      apply StronglySorted_app_2; [|exact Hsorted|repeat constructor].
      intros i j Hi Hj. apply list_elem_of_singleton in Hj as ->.
      apply list_elem_of_In, in_map_iff in Hi as (y & <- & Hy).
      apply (proj1 (Forall_forall _ _) Hbound). now apply list_elem_of_In.
    + apply Forall_app. split; [exact Hbound'|].
      repeat constructor. rewrite Hindex, length_app. cbn [length]. lia.
    + apply Forall_app. split.
      * eapply Forall_impl; [exact Hcomplete|]. intros v Hv. cbv beta.
        now rewrite existsb_app, Hv.
      * repeat constructor. rewrite existsb_app. cbn [existsb].
        rewrite sameValueZero_stored. now rewrite orb_true_r.
Qed.

(** The distinct values of [new Set(values)] stand in the order of their
    first occurrence among the values. *)
Lemma Set_of_first_seen (values : list number) :
  first_seen values (Set_of values).
Proof.
  unfold Set_of.
  assert (Hgen : forall done set,
            first_seen done set ->
            first_seen (done ++ values) (fold_left Set_add values set)).
  { induction values as [|x values IH]; intros done set Hseen;
      cbn [fold_left].
    - now rewrite app_nil_r.
    - replace (done ++ x :: values) with ((done ++ [x]) ++ values)
        by now rewrite <- app_assoc.
      now apply IH, Set_add_first_seen. }
  apply (Hgen [] []). repeat split; constructor.
Qed.

Lemma fleschReadingEaseToGrade_number (score : number) :
  isNaN (fleschReadingEaseToGrade score) = false.
Proof.
  unfold fleschReadingEaseToGrade.
  repeat match goal with |- context [if ?c then _ else _] => destruct c end;
    reflexivity.
Qed.

Lemma filter_length_pos {A} (f : A -> bool) (l : list A) (v : A) :
  In v l -> f v = true -> (1 <= length (List.filter f l))%nat.
Proof.
  induction l as [|x l IH]; intros Hin Hv; [destruct Hin|].
  cbn [List.filter]. destruct Hin as [->|Hin].
  - rewrite Hv. cbn [length]. lia.
  - specialize (IH Hin Hv). destruct (f x); cbn [length]; lia.
Qed.

(** A vote that is a number is counted at least once in its entry. *)
Lemma counterMap_counts_vote (grade : list number) (vote : number) :
  In vote grade -> isNaN vote = false ->
  exists entry, In entry (counterMap grade) /\ 1 <= snd entry.
Proof.
  intros Hin Hnum.
  pose proof (proj1 (Forall_forall _ _) (Set_of_complete grade) vote
                (proj2 (list_elem_of_In _ _) Hin)) as Hset.
  apply existsb_exists in Hset as (x & Hx & Hsame).
  exists (x, Z.of_nat (length (List.filter (fun y => (y === x)%num) grade))).
  split.
  - unfold counterMap. apply in_map_iff. exists x. split; [reflexivity|exact Hx].
  - cbn [snd]. unfold sameValueZero in Hsame. rewrite Hnum in Hsame.
    pose proof (filter_length_pos (fun y => (y === x)%num) grade vote Hin Hsame).
    lia.
Qed.

Lemma count_NaN (grade : list number) :
  List.filter (fun y => (y === S754_nan)%num) grade = [].
Proof.
  induction grade as [|y grade IH]; [reflexivity|].
  cbn [List.filter]. now destruct y as [[|]|[|]| |[|] ? ?].
Qed.

(** The fold of line 509 returns an entry that no earlier entry beats and
    that every later entry falls short of. *)
Lemma fold_laterOrGreater (entries : list (number * Z)) (first : number * Z) :
  exists earlier later,
    first :: entries
    = earlier ++ fold_left laterOrGreater entries first :: later
    /\ Forall (fun entry => snd entry <= snd (fold_left laterOrGreater entries first))
         earlier
    /\ Forall (fun entry => snd entry < snd (fold_left laterOrGreater entries first))
         later.
Proof.
  induction entries as [|y entries IH] using rev_ind.
  - exists [], []. cbn. repeat split; constructor.
  - destruct IH as (earlier & later & Heq & Hearlier & Hlater).
    rewrite fold_left_app. cbn [fold_left].
    set (w := fold_left laterOrGreater entries first) in *.
    unfold laterOrGreater. destruct (Z.geb_spec (snd y) (snd w)) as [Hge|Hlt].
    + exists (first :: entries), []. split; [reflexivity|]. split; [|constructor].
      rewrite Heq. apply Forall_app. split; [|constructor].
      * eapply Forall_impl; [exact Hearlier|]. cbn. intros; lia.
      * lia.
      * eapply Forall_impl; [exact Hlater|]. cbn. intros; lia.
    + exists earlier, (later ++ [y]). split.
      * change (first :: entries ++ [y]) with ((first :: entries) ++ [y]).
        rewrite Heq, <- app_assoc. reflexivity.
      * split; [exact Hearlier|]. apply Forall_app. split; [exact Hlater|].
        constructor; [lia|constructor].
Qed.

(** The mode of any non-empty list of votes with a number among them. *)
Lemma finalGrade_mode (grade : list number) (vote : number) :
  In vote grade -> isNaN vote = false ->
  Forall (fun vote => existsb (sameValueZero vote) (map fst (counterMap grade)) = true)
    grade /\
  ForallOrdPairs (fun a b => sameValueZero a b = false) (map fst (counterMap grade)) /\
  StronglySorted lt
    (map (fun x => first_index x grade) (map fst (counterMap grade))) /\
  Forall (fun x => (first_index x grade < length grade)%nat)
    (map fst (counterMap grade)) /\
  Forall (fun entry =>
            snd entry
            = Z.of_nat (length (List.filter (fun y => (y === fst entry)%num) grade)))
    (counterMap grade) /\
  exists winner earlier later,
    counterMap grade = earlier ++ winner :: later /\
    Forall (fun entry => snd entry <= snd winner) earlier /\
    Forall (fun entry => snd entry < snd winner) later /\
    Forall (fun vote =>
              Z.of_nat (length (List.filter (fun y => (y === vote)%num) grade))
              <= snd winner)
      grade /\
    1 <= snd winner /\ isNaN (fst winner) = false /\
    finalGrade grade = Some winner.
Proof.
  intros Hvote Hnumber.
  assert (Hcounts : forall e, In e (counterMap grade) ->
            snd e = Z.of_nat (length (List.filter (fun y => (y === fst e)%num) grade))).
  { intros e He. unfold counterMap in He.
    apply in_map_iff in He as (x & <- & _). reflexivity. }
  assert (Hkeys : map fst (counterMap grade) = Set_of grade).
  { unfold counterMap. rewrite map_map. cbn [fst]. apply map_id. }
  destruct (Set_of_first_seen grade) as (Hsorted & Hbound & _).
  split; [rewrite Hkeys; apply Set_of_complete|].
  split; [rewrite Hkeys; apply Set_of_distinct|].
  split; [rewrite Hkeys; exact Hsorted|].
  split; [rewrite Hkeys; exact Hbound|].
  split.
  { apply Forall_forall. intros entry Hin. apply Hcounts.
    now apply list_elem_of_In. }
  destruct (counterMap_counts_vote grade vote Hvote Hnumber)
    as (entry & Hentry & Hcount).
  unfold finalGrade.
  destruct (counterMap grade) as [|first entries] eqn:Hmap; [destruct Hentry|].
  cbn [reduce].
  destruct (fold_laterOrGreater entries first) as (earlier & later & Heq & H1 & H2).
  set (winner := fold_left laterOrGreater entries first) in *.
  assert (Hmost : forall e, In e (first :: entries) -> snd e <= snd winner).
  { intros e He. rewrite Heq in He. apply in_app_or in He as [Hin|[<-|Hin]].
    - apply list_elem_of_In in Hin.
      exact (proj1 (Forall_forall _ _) H1 e Hin).
    - lia.
    - apply list_elem_of_In in Hin.
      pose proof (proj1 (Forall_forall _ _) H2 e Hin) as Hlt.
      cbv beta in Hlt. lia. }
  assert (Hwin : 1 <= snd winner).
  { specialize (Hmost entry Hentry). lia. }
  exists winner, earlier, later.
  split; [exact Heq|]. split; [exact H1|]. split; [exact H2|].
  split.
  { apply Forall_forall. intros v Hv.
    destruct (isNaN v) eqn:Hnan.
    - destruct v; try discriminate. rewrite count_NaN. cbn [length]. lia.
    - pose proof (proj1 (Forall_forall _ _) (Set_of_complete grade) v Hv)
        as Hset.
      apply existsb_exists in Hset as (x & Hx & Hsame).
      unfold sameValueZero in Hsame. rewrite Hnan in Hsame.
      cbn [andb orb] in Hsame.
      assert (Hentry' : In (x, Z.of_nat (length (List.filter
                                (fun y => (y === x)%num) grade)))
                          (first :: entries)).
      { rewrite <- Hmap. unfold counterMap. apply in_map_iff.
        exists x. split; [reflexivity|exact Hx]. }
      specialize (Hmost _ Hentry'). cbn [snd] in Hmost.
      rewrite (List.filter_ext (fun y => (y === v)%num)
                 (fun y => (y === x)%num)
                 (fun y => eqb_congr v x y Hsame)).
      exact Hmost. }
  split; [exact Hwin|]. split; [|reflexivity].
  destruct (fst winner) eqn:Hfst; try reflexivity.
  exfalso.
  assert (Hin : In winner (first :: entries)).
  { rewrite Heq. apply in_or_app. right. left. reflexivity. }
  rewrite (Hcounts winner Hin) in Hwin. rewrite Hfst in Hwin.
  rewrite (count_NaN grade) in Hwin. cbn [length] in Hwin. lia.
Qed.

(** C2. [textStandard] collects exactly fifteen votes: for each of
    Flesch-Kincaid, SMOG, Coleman-Liau, ARI, Dale-Chall grade, Linsear Write
    and Gunning Fog the floor of the score rounded by [legacyRound] and the
    floor of its ceiling, and the Flesch Reading Ease grade once. Every vote
    has its entry in the list of distinct values, whose entries differ from
    one another and stand in the order in which they first occur among the
    votes; each entry carries the number of votes [===] to it. The winner is
    an entry whose count no earlier entry exceeds and every later entry
    falls short of: no vote has more votes [===] to it than the winner has,
    and a tie goes to the value met later in the list of distinct values. A
    NaN vote is [===] to nothing, itself included, so NaN has a count of zero
    however many votes are NaN, and is never the winner: the winner has a
    vote (the Flesch Reading Ease grade is always a number). *)
Theorem textStandard_votes_and_mode (text : jsstring) :
  let grade := textStandard_grade text in
  length grade = 15%nat /\
  grade =
    [ Num.floor (legacyRound (fleschKincaidGrade text) 0);
      Num.floor (Num.ceil (fleschKincaidGrade text));
      fleschReadingEaseToGrade (fleschReadingEase text);
      Num.floor (legacyRound (smogIndex text) 0);
      Num.floor (Num.ceil (smogIndex text));
      Num.floor (legacyRound (colemanLiauIndex text) 0);
      Num.floor (Num.ceil (colemanLiauIndex text));
      Num.floor (legacyRound (automatedReadabilityIndex text) 0);
      Num.floor (Num.ceil (automatedReadabilityIndex text));
      Num.floor (legacyRound (daleChallToGrade (daleChallReadabilityScore text)) 0);
      Num.floor (Num.ceil (daleChallToGrade (daleChallReadabilityScore text)));
      Num.floor (legacyRound (linsearWriteFormula text) 0);
      Num.floor (Num.ceil (linsearWriteFormula text));
      Num.floor (legacyRound (gunningFog text) 0);
      Num.floor (Num.ceil (gunningFog text)) ] /\
  Forall (fun vote => existsb (sameValueZero vote) (map fst (counterMap grade)) = true)
    grade /\
  ForallOrdPairs (fun a b => sameValueZero a b = false) (map fst (counterMap grade)) /\
  StronglySorted lt
    (map (fun x => first_index x grade) (map fst (counterMap grade))) /\
  Forall (fun x => (first_index x grade < length grade)%nat)
    (map fst (counterMap grade)) /\
  Forall (fun entry =>
            snd entry
            = Z.of_nat (length (List.filter (fun y => (y === fst entry)%num) grade)))
    (counterMap grade) /\
  exists winner earlier later,
    counterMap grade = earlier ++ winner :: later /\
    Forall (fun entry => snd entry <= snd winner) earlier /\
    Forall (fun entry => snd entry < snd winner) later /\
    Forall (fun vote =>
              Z.of_nat (length (List.filter (fun y => (y === vote)%num) grade))
              <= snd winner)
      grade /\
    1 <= snd winner /\ isNaN (fst winner) = false /\
    finalGrade grade = Some winner /\
    textStandard text true = Some (ConsensusNumber (fst winner)).
Proof.
  cbv zeta.
  split; [reflexivity|]. split; [reflexivity|].
  assert (Hvote : In (fleschReadingEaseToGrade (fleschReadingEase text))
                    (textStandard_grade text)).
  { right. right. left. reflexivity. }
  destruct (finalGrade_mode (textStandard_grade text) _ Hvote
              (fleschReadingEaseToGrade_number _))
    as (Hall & Hdistinct & Horder & Hbound & Hcount & winner & earlier & later
        & Hmap & H1 & H2 & Hmost & Hwin & Hnumber & Hfinal).
  split; [exact Hall|]. split; [exact Hdistinct|].
  split; [exact Horder|]. split; [exact Hbound|]. split; [exact Hcount|].
  exists winner, earlier, later.
  split; [exact Hmap|]. split; [exact H1|]. split; [exact H2|].
  split; [exact Hmost|].
  split; [exact Hwin|]. split; [exact Hnumber|]. split; [exact Hfinal|].
  unfold textStandard. rewrite Hfinal. reflexivity.
Qed.

(** *** The median of [textMedian] *)

Lemma CountAndMakeRun_perm (comparefn : number -> number -> number)
    (array : list number) :
  let '(workArray, runLength) := CountAndMakeRun comparefn array in
  workArray ≡ₚ array.
Proof.
  unfold CountAndMakeRun.
  destruct array as [|elementHigh [|elementLow rest]]; try reflexivity.
  destruct (SortCompare comparefn elementLow elementHigh <? Num.zero)%num;
    [|reflexivity].
  set (runLength := (2 + _)%nat).
  rewrite <- (take_drop runLength (elementHigh :: elementLow :: rest)) at 3.
  apply Permutation_app_tail. symmetry. apply Permutation_rev.
Qed.

Lemma BinaryInsertionSort_perm (comparefn : number -> number -> number)
    (run rest : list number) :
  BinaryInsertionSort comparefn run rest ≡ₚ run ++ rest.
Proof.
  revert run. induction rest as [|pivot rest IH]; intros run;
    cbn [BinaryInsertionSort].
  - now rewrite app_nil_r.
  - rewrite IH. set (left := binary_search _ _ _ _ _ _).
    rewrite <- (take_drop left run) at 3.
    rewrite <- !app_assoc. apply Permutation_app_head.
    cbn [app]. apply Permutation_middle.
Qed.

Lemma Array_sort_perm (comparefn : number -> number -> number)
    (array : list number) :
  Array_sort comparefn array ≡ₚ array.
Proof.
  unfold Array_sort.
  pose proof (CountAndMakeRun_perm comparefn array) as H.
  destruct (CountAndMakeRun comparefn array) as [workArray runLength].
  now rewrite BinaryInsertionSort_perm, take_drop.
Qed.

Lemma Array_sort_length (comparefn : number -> number -> number)
    (array : list number) :
  length (Array_sort comparefn array) = length array.
Proof. apply Permutation_length, Array_sort_perm. Qed.

(** ** Further properties of the engine *)

(** *** Characters and words *)

Lemma filter_length_le {A} (f : A -> bool) (l : list A) :
  (length (List.filter f l) <= length l)%nat.
Proof.
  induction l as [|x l IH]; cbn [List.filter length]; [lia|].
  destruct (f x); cbn [length]; lia.
Qed.

Lemma filter_all {A} (f : A -> bool) (l : list A) :
  forallb f l = true -> List.filter f l = l.
Proof.
  induction l as [|x l IH]; cbn [forallb List.filter]; [reflexivity|].
  intros H. apply andb_prop in H as [Hx Hl]. now rewrite Hx, (IH Hl).
Qed.

Lemma filter_forallb {A} (f : A -> bool) (l : list A) :
  forallb f (List.filter f l) = true.
Proof.
  induction l as [|x l IH]; cbn [List.filter]; [reflexivity|].
  destruct (f x) eqn:Hx; [|exact IH]. cbn [forallb]. now rewrite Hx, IH.
Qed.

Lemma filter_comm {A} (f g : A -> bool) (l : list A) :
  List.filter f (List.filter g l) = List.filter g (List.filter f l).
Proof.
  induction l as [|x l IH]; [reflexivity|]. cbn [List.filter].
  destruct (f x) eqn:Hf, (g x) eqn:Hg; cbn [List.filter];
    rewrite ?Hf, ?Hg, IH; reflexivity.
Qed.

(** X1. [removePunctuation] is idempotent: its result holds no character of
    the punctuation class, a text without such characters is returned as it
    is, and the result is never longer than the text. *)
Theorem removePunctuation_idempotent (text : jsstring) :
  removePunctuation (removePunctuation text) = removePunctuation text /\
  forallb (fun c => negb (punctuationRE c)) (removePunctuation text) = true /\
  (forallb (fun c => negb (punctuationRE c)) text = true ->
   removePunctuation text = text) /\
  (length (removePunctuation text) <= length text)%nat.
Proof.
  unfold removePunctuation.
  split; [apply filter_all, filter_forallb|].
  split; [apply filter_forallb|].
  split; [apply filter_all|apply filter_length_le].
Qed.

(** X5. The counts are ordered: letters are characters that are not
    punctuation, so [letterCount] is [charCount] less the punctuation
    characters counted, and dropping the spaces never raises a count. *)
Theorem letterCount_charCount (text : jsstring) (ignoreSpaces : bool) :
  let counted := if ignoreSpaces then removeSpaces text else text in
  charCount text ignoreSpaces
  = letterCount text ignoreSpaces
    + Z.of_nat (length (List.filter punctuationRE counted)) /\
  0 <= letterCount text ignoreSpaces <= charCount text ignoreSpaces /\
  charCount text true <= charCount text false /\
  letterCount text true <= letterCount text false /\
  charCount text false = Z.of_nat (length text).
Proof.
  cbv zeta. unfold charCount, letterCount, removePunctuation.
  set (counted := if ignoreSpaces then removeSpaces text else text).
  pose proof (filter_length_split punctuationRE counted) as Hsplit.
  assert (Hspaces : removePunctuation (removeSpaces text)
                    = removeSpaces (removePunctuation text)).
  { unfold removePunctuation, removeSpaces. apply filter_comm. }
  split; [lia|]. split; [lia|]. split.
  - unfold removeSpaces. pose proof (filter_length_le (fun c => negb (c =? 32)%N) text).
    lia.
  - split; [|reflexivity].
    fold (removePunctuation (removeSpaces text)). fold (removePunctuation text).
    rewrite Hspaces. unfold removeSpaces.
    pose proof (filter_length_le (fun c => negb (c =? 32)%N) (removePunctuation text)).
    lia.
Qed.

Lemma split_on_pieces (text : jsstring) :
  Forall (fun piece => forallb (fun c => negb (wordSeparator c)) piece = true)
    (split_on wordSeparator text)
  /\ concat (split_on wordSeparator text)
     = List.filter (fun c => negb (wordSeparator c)) text.
Proof.
  induction text as [|c text [IHall IHcat]]; cbn [split_on List.filter].
  - split; [repeat constructor|reflexivity].
  - destruct (wordSeparator c) eqn:Hc; cbn [negb].
    + split; [constructor; [reflexivity|exact IHall]|exact IHcat].
    + destruct (split_on wordSeparator text) as [|piece pieces].
      * cbn [concat] in IHcat. rewrite <- IHcat. split; [|reflexivity].
        constructor; [cbn [forallb]; now rewrite Hc|constructor].
      * apply Forall_cons in IHall as [Hpiece Hpieces]. split.
        -- constructor; [cbn [forallb]; now rewrite Hc, Hpiece|exact Hpieces].
        -- cbn [concat app] in *. now rewrite IHcat.
Qed.

Lemma concat_filter_truthy (pieces : list jsstring) :
  concat (List.filter truthy pieces) = concat pieces.
Proof.
  induction pieces as [|piece pieces IH]; [reflexivity|].
  cbn [List.filter]. destruct piece; cbn [truthy concat app]; now rewrite IH.
Qed.

Lemma split_well_formed (text : jsstring) :
  Forall (fun word =>
            word <> [] /\ forallb (fun c => negb (wordSeparator c)) word = true)
    (split text).
Proof.
  unfold split. destruct (split_on_pieces text) as [Hall _].
  apply Forall_forall. intros word Hword.
  apply list_elem_of_In, filter_In in Hword as [Hin Htruthy].
  split; [now destruct word|].
  apply (proj1 (Forall_forall _ _) Hall). now apply list_elem_of_In.
Qed.

(** X2. The words of [split] are never empty and hold no separator (comma,
    space, newline, carriage return), and put end to end they are the text
    with its separators taken out: nothing else is lost or reordered. *)
Theorem split_words (text : jsstring) :
  Forall (fun word =>
            word <> [] /\ forallb (fun c => negb (wordSeparator c)) word = true)
    (split text)
  /\ concat (split text) = List.filter (fun c => negb (wordSeparator c)) text.
Proof.
  split; [apply split_well_formed|].
  unfold split. destruct (split_on_pieces text) as [_ Hcat].
  now rewrite concat_filter_truthy.
Qed.

Lemma split_join_words (words : list jsstring) :
  Forall (fun word =>
            word <> [] /\ forallb (fun c => negb (wordSeparator c)) word = true)
    words ->
  split (join (str " ") words) = words.
Proof.
  unfold split.
  induction words as [|word words IH]; intros Hwords; [reflexivity|].
  apply Forall_cons in Hwords as [[Hne Hsep] Hwords].
  destruct words as [|next words].
  - cbn [join]. rewrite (split_on_word _ Hsep). now destruct word.
  - change (join (str " ") (word :: next :: words))
      with (word ++ 32%N :: join (str " ") (next :: words)).
    rewrite (split_on_app word _ 32%N Hsep eq_refl).
    cbn [List.filter]. rewrite (IH Hwords). now destruct word.
Qed.

Lemma split_join_take (text : jsstring) (n : nat) :
  split (join (str " ") (take n (split text))) = take n (split text).
Proof. apply split_join_words, Forall_take, split_well_formed. Qed.

(** X3. Joining words with single spaces and splitting again gives the words
    back: [split] undoes [join] on the output of [split], whole or cut to
    its first [n] words (as [linsearWriteFormula] cuts it to 100). *)
Theorem split_join_split (text : jsstring) (n : nat) :
  split (join (str " ") (split text)) = split text /\
  split (join (str " ") (take n (split text))) = take n (split text).
Proof.
  split; [|apply split_join_take].
  apply split_join_words, split_well_formed.
Qed.

Lemma wordStarts_split_on (text : jsstring) :
  exists piece pieces,
    split_on wordSeparator text = piece :: pieces
    /\ wordStarts false text
       = ((if truthy piece then 1 else 0) + length (List.filter truthy pieces))%nat
    /\ wordStarts true text = length (List.filter truthy pieces).
Proof.
  induction text as [|c text (piece & pieces & Heq & Hfalse & Htrue)].
  - exists [], []. repeat split.
  - cbn [split_on wordStarts]. rewrite Heq. destruct (wordSeparator c).
    + exists [], (piece :: pieces). cbn [List.filter truthy].
      split; [reflexivity|].
      rewrite Hfalse. destruct (truthy piece); cbn [length]; lia.
    + exists (c :: piece), pieces. cbn [truthy]. split; [reflexivity|]. lia.
Qed.

Lemma wordStarts_words (text : jsstring) :
  length (List.filter truthy (split_on wordSeparator text)) = wordStarts false text.
Proof.
  destruct (wordStarts_split_on text) as (piece & pieces & -> & -> & _).
  cbn [List.filter]. destruct (truthy piece); cbn [length]; lia.
Qed.

Lemma wordStarts_inWord (text : jsstring) :
  (wordStarts true text <= wordStarts false text <= 1 + wordStarts true text)%nat.
Proof.
  destruct text as [|c text]; cbn [wordStarts]; [lia|].
  destruct (wordSeparator c); lia.
Qed.

(** Taking characters out of a text never adds a word: a removed separator
    can only merge two words, a removed letter can only empty one. *)
Lemma wordStarts_filter (keep : N -> bool) (text : jsstring) (inWord : bool) :
  (wordStarts inWord (List.filter keep text) <= wordStarts inWord text)%nat.
Proof.
  revert inWord. induction text as [|c text IH]; intros inWord; [reflexivity|].
  cbn [List.filter]. destruct (keep c).
  - cbn [wordStarts]. destruct (wordSeparator c).
    + apply IH.
    + specialize (IH true). lia.
  - cbn [wordStarts]. destruct (wordSeparator c).
    + pose proof (IH false). pose proof (wordStarts_inWord (List.filter keep text)).
      destruct inWord; lia.
    + pose proof (IH true). pose proof (wordStarts_inWord (List.filter keep text)).
      destruct inWord; lia.
Qed.

Lemma lexiconCount_split (text : jsstring) :
  lexiconCount text false = Z.of_nat (length (split text)).
Proof. reflexivity. Qed.

(** X4. Removing the punctuation never adds a word: [lexiconCount] with
    punctuation removed (the default) is at most [lexiconCount] with it
    kept, which is the number of words [split] returns. *)
Theorem lexiconCount_punctuation (text : jsstring) :
  0 <= lexiconCount text true <= lexiconCount text false /\
  lexiconCount text false = Z.of_nat (length (split text)).
Proof.
  unfold lexiconCount, split, removePunctuation.
  rewrite !wordStarts_words.
  pose proof (wordStarts_filter (fun c => negb (punctuationRE c)) text false).
  split; [lia|reflexivity].
Qed.

(** *** Sentences *)

Lemma sentenceBoundary_lowercase (text : jsstring) :
  forallb (fun c => negb (in_range 65 90 c)) text = true ->
  sentenceBoundary text = None.
Proof.
  intros H. unfold sentenceBoundary.
  pose proof (skip_while_forallb (fun c => (c =? 32)%N) _ text H) as H1.
  destruct (skip_while _ text) as [spaces [|mark t2]]; [reflexivity|].
  cbn [snd forallb] in H1. apply andb_prop in H1 as [_ H2].
  destruct (elem mark (str ".?!")); [|reflexivity].
  pose proof (skip_while_forallb
                (fun c => elem c (39 :: 34 :: str ")]")%N) _ t2 H2) as H3.
  destruct (skip_while _ t2) as [closers [|gap [|next t4]]]; try reflexivity.
  cbn [snd forallb] in H3.
  apply andb_prop in H3 as [_ H3]. apply andb_prop in H3 as [Hnext _].
  apply negb_true_iff in Hnext. rewrite Hnext. now rewrite andb_false_r.
Qed.

Lemma splitSentences_lowercase (text : jsstring) :
  forallb (fun c => negb (in_range 65 90 c)) text = true ->
  splitSentences text = [text].
Proof.
  unfold splitSentences.
  induction text as [|c text IH]; [reflexivity|].
  intros H. cbn [splitSentences_from].
  rewrite (sentenceBoundary_lowercase _ H).
  cbn [forallb] in H. apply andb_prop in H as [_ H]. now rewrite (IH H).
Qed.

(** X6. A sentence boundary needs an upper-case ASCII letter after it, so a
    text without one is never split: it is a single piece, [sentenceCount]
    is 1 whatever its punctuation, and [smogIndex], which asks for three
    sentences, is [0.0]. *)
Theorem lowercase_text_one_sentence (text : jsstring) :
  forallb (fun c => negb (in_range 65 90 c)) text = true ->
  splitSentences text = [text] /\ sentenceCount text = 1 /\
  smogIndex text = Num.zero.
Proof.
  intros H.
  assert (Hcount : sentenceCount text = 1).
  { unfold sentenceCount. rewrite (splitSentences_lowercase _ H).
    cbn [fold_left length]. destruct (lexiconCount text true <=? 2); reflexivity. }
  split; [now apply splitSentences_lowercase|]. split; [exact Hcount|].
  unfold smogIndex. rewrite Hcount. reflexivity.
Qed.

(** *** Difficult words *)

Lemma forallb_rev_true {A} (p : A -> bool) (l : list A) :
  forallb p l = true -> forallb p (rev l) = true.
Proof.
  intros H. apply List.forallb_forall. intros x Hx. apply in_rev in Hx.
  now apply (proj1 (List.forallb_forall p l) H).
Qed.

Lemma match_runs_runs (p : N -> bool) (text cur : jsstring) :
  forallb p cur = true ->
  Forall (fun run => run <> [] /\ forallb p run = true) (match_runs p cur text).
Proof.
  revert cur. induction text as [|c text IH]; intros cur Hcur; cbn [match_runs].
  - destruct cur as [|d cur]; cbn [truthy]; constructor; [|constructor].
    split; [intros Hrev; apply (f_equal (@length N)) in Hrev;
            rewrite length_rev in Hrev; discriminate|].
    now apply forallb_rev_true.
  - destruct (p c) eqn:Hc.
    + apply IH. cbn [forallb]. now rewrite Hc, Hcur.
    + destruct cur as [|d cur]; cbn [truthy]; [now apply IH|].
      constructor; [|now apply IH].
      split; [intros Hrev; apply (f_equal (@length N)) in Hrev;
              rewrite length_rev in Hrev; discriminate|].
      now apply forallb_rev_true.
Qed.

Lemma match_runs_nil (p : N -> bool) (text cur : jsstring) :
  match_runs p cur text = [] ->
  cur = [] /\ forallb (fun c => negb (p c)) text = true.
Proof.
  revert cur. induction text as [|c text IH]; intros cur; cbn [match_runs forallb].
  - destruct cur; cbn [truthy]; [tauto|discriminate].
  - destruct (p c) eqn:Hc.
    + intros H. apply IH in H as [H _]. discriminate.
    + destruct cur; cbn [truthy]; [|discriminate].
      intros H. apply IH in H as [_ H]. now rewrite H.
Qed.

(** X7. The tokens of the difficult-word scan are never empty and are made
    of word characters only (letters, digits, underscore, equals sign, curly
    quotes); the scan finds nothing ([null]) exactly when the text holds no
    word character, and then [difficultWords] is 0 at every threshold. *)
Theorem matchAll_tokens (text : jsstring) :
  (forall textList, matchAll wordChar text = Some textList ->
     textList <> [] /\
     Forall (fun word => word <> [] /\ forallb wordChar word = true) textList) /\
  (matchAll wordChar text = None <->
   forallb (fun c => negb (wordChar c)) text = true) /\
  (matchAll wordChar text = None ->
   forall syllableThreshold, difficultWords text syllableThreshold = 0).
Proof.
  split; [|split].
  - intros textList H. unfold matchAll in H.
    pose proof (match_runs_runs wordChar text [] eq_refl) as Hruns.
    destruct (match_runs wordChar [] text); [discriminate|].
    injection H as <-. split; [discriminate|exact Hruns].
  - unfold matchAll. split.
    + destruct (match_runs wordChar [] text) eqn:Hruns; [|discriminate].
      intros _. now apply match_runs_nil in Hruns.
    + intros H. now rewrite (match_runs_none _ _ H).
  - intros H syllableThreshold. unfold difficultWords. rewrite H. reflexivity.
Qed.

(** Propositional reasoning that does not look at the external collaborators
    of the section. *)
Ltac prop_tauto :=
  clear syllable pluralize easyWords toLocaleLowerCase Math_pow Number_toString;
  tauto.

Lemma diffWordsSet_fold (P : jsstring -> bool) (textList : list jsstring)
    (start : gset jsstring) :
  fold_left
    (fun (diffWordsSet : gset jsstring) word =>
       if P word then {[word]} ∪ diffWordsSet else diffWordsSet)
    textList start
  = list_to_set (List.filter P textList) ∪ start.
Proof using Type.
  revert start. induction textList as [|word textList IH]; intros start;
    cbn [fold_left List.filter].
  - cbn. now rewrite (left_id_L ∅ (∪)).
  - rewrite IH. destruct (P word); [|reflexivity].
    rewrite list_to_set_cons. apply set_eq. intros x.
    rewrite !elem_of_union. prop_tauto.
Qed.

Lemma size_list_to_set_le (words : list jsstring) :
  (size (list_to_set words : gset jsstring) <= length words)%nat.
Proof using Type.
  induction words as [|word words IH]; cbn [length].
  - now rewrite list_to_set_nil, size_empty.
  - rewrite list_to_set_cons, size_union_alt, size_singleton.
    assert (Hsub : list_to_set words ∖ {[word]}
                   ⊆ (list_to_set words : gset jsstring)).
    { intros x Hx. apply elem_of_difference in Hx. prop_tauto. }
    apply subseteq_size in Hsub. lia.
Qed.

(** X8. [difficultWords] is the number of distinct tokens, as written in the
    text, that are difficult at the threshold: a token that occurs twice
    counts once, and the count lies between 0 and the number of tokens. *)
Theorem difficultWords_distinct (text : jsstring) (syllableThreshold : Z) :
  let textList := default [] (matchAll wordChar text) in
  difficultWords text syllableThreshold
  = Z.of_nat
      (size (list_to_set (List.filter (isDifficult syllableThreshold) textList)
             : gset jsstring)) /\
  0 <= difficultWords text syllableThreshold <= Z.of_nat (length textList).
Proof.
  cbv zeta. unfold difficultWords.
  destruct (matchAll wordChar text) as [textList|];
    cbn [default from_option]; unfold id.
  - rewrite diffWordsSet_fold, (right_id_L ∅ (∪)). split; [reflexivity|].
    pose proof (size_list_to_set_le
                  (List.filter (isDifficult syllableThreshold) textList)).
    pose proof (filter_length_le (isDifficult syllableThreshold) textList).
    lia.
  - cbn [List.filter length]. rewrite list_to_set_nil, !size_empty. lia.
Qed.

(** *** Present tense and Linsear Write *)

(** X9. [presentTense] never lengthens a word and never touches anything but
    its last three characters: the result is at most as long as the word, and
    the two agree on all but the last three positions of the word. *)
Theorem presentTense_keeps_stem (word : jsstring) :
  (length (presentTense word) <= length word)%nat /\
  take (length word - 3) (presentTense word) = take (length word - 3) word.
Proof.
  unfold presentTense, slice_end.
  destruct (Nat.ltb_spec (length word) 6) as [Hshort|Hlong]; [split; reflexivity|].
  destruct (endsWith word (str "ed")).
  { destruct (bool_decide _); rewrite length_take, take_take; split; try lia;
      f_equal; lia. }
  destruct (endsWith word (str "ing")); [|split; reflexivity].
  destruct (bool_decide _).
  - rewrite length_app, length_take. cbn [str length map list_ascii_of_string].
    split; [lia|].
    rewrite take_app_le by (rewrite length_take; lia).
    rewrite take_take. f_equal. lia.
  - rewrite length_take, take_take. split; [lia|]. f_equal. lia.
Qed.

(** X10. [linsearWriteFormula] reads the first hundred words of the text and
    nothing else: it returns the same score on the text and on its first
    hundred words joined by single spaces. *)
Theorem linsearWriteFormula_first_100 (text : jsstring) :
  linsearWriteFormula text
  = linsearWriteFormula (join (str " ") (take 100 (split text))).
Proof.
  unfold linsearWriteFormula.
  rewrite (split_join_take text 100), take_take, Nat.min_id.
  reflexivity.
Qed.

(** *** What the guards give *)

Lemma guard_not_NaN (returnVal : number) :
  isNaN (if negb (isNaN returnVal) then returnVal else Num.zero) = false.
Proof. now destruct returnVal. Qed.

(** X11. The nine functions that end in an [isNaN] test never return NaN,
    for any text and whatever the syllable estimate, the pluralizer, the
    dictionary or the power function do: the five averages, [smogIndex],
    [automatedReadabilityIndex], [linsearWriteFormula] and [gunningFog]. *)
Theorem guarded_formulas_never_NaN (text : jsstring) :
  isNaN (averageSentenceLength text) = false /\
  isNaN (averageSyllablePerWord text) = false /\
  isNaN (averageCharacterPerWord text) = false /\
  isNaN (averageLetterPerWord text) = false /\
  isNaN (averageSentencePerWord text) = false /\
  isNaN (smogIndex text) = false /\
  isNaN (automatedReadabilityIndex text) = false /\
  isNaN (linsearWriteFormula text) = false /\
  isNaN (gunningFog text) = false.
Proof.
  repeat split; try apply guard_not_NaN.
  - unfold smogIndex. destruct (sentenceCount text >=? 3);
      [apply guard_not_NaN|reflexivity].
  - unfold linsearWriteFormula. destruct (fold_left _ _ _) as [easyWord difficultWord].
    apply guard_not_NaN.
Qed.

(** X12. On a text without a word (nothing but separators and punctuation)
    the averages are [0.0], so the two Flesch formulas return their constant
    terms rounded, [206.84] and [-15.7], the Flesch grade is 16,
    [gunningFog] and [automatedReadabilityIndex] return [0.0] through their
    guard, and [colemanLiauIndex], which has none, returns NaN. [lix]
    returns NaN when [split] finds no token at all. *)
Theorem wordless_text_scores (text : jsstring) :
  lexiconCount text true = 0 ->
  fleschReadingEase text = dec 20684 2 /\
  fleschKincaidGrade text = (- dec 157 1)%num /\
  fleschReadingEaseToGrade (fleschReadingEase text) = of_Z 16 /\
  gunningFog text = Num.zero /\
  automatedReadabilityIndex text = Num.zero /\
  isNaN (colemanLiauIndex text) = true /\
  (split text = [] -> isNaN (lix text) = true).
Proof.
  intros Hwords.
  pose proof (averageSentenceLength_no_word _ Hwords) as Hasl.
  pose proof (averageSyllablePerWord_no_word _ Hwords) as Hasw.
  destruct (averagePerWord_no_word _ Hwords) as (Hchar & Hletter & Hsent).
  assert (Hflesch : fleschReadingEase text = dec 20684 2).
  { unfold fleschReadingEase. rewrite Hasl, Hasw. vm_compute. reflexivity. }
  split; [exact Hflesch|].
  split; [unfold fleschKincaidGrade; rewrite Hasl, Hasw; vm_compute; reflexivity|].
  split; [rewrite Hflesch; vm_compute; reflexivity|].
  split.
  { unfold gunningFog. rewrite Hasl, Hwords.
    change (of_Z 0) with (S754_zero false).
    destruct (of_Z (difficultWords text 3)) as [[|]|[|]| |[|] m e]; reflexivity. }
  split.
  { unfold automatedReadabilityIndex. cbv zeta. rewrite Hwords.
    change (of_Z 0) with (S754_zero false).
    rewrite (legacyRound_degenerate _ 2 (div_zero_degenerate _ false)).
    rewrite mul_NaN_r. reflexivity. }
  split.
  { unfold colemanLiauIndex. rewrite Hletter, Hsent. reflexivity. }
  intros Hsplit. unfold lix. rewrite Hsplit, Hasl. reflexivity.
Qed.

(** *** Aggregators *)

Lemma Set_add_sound (set : list number) (x y : number) :
  In y (Set_add set x) -> In y set \/ y = Set_stored x.
Proof using Type.
  unfold Set_add. destruct (existsb (sameValueZero x) set); [prop_tauto|].
  intros H. apply in_app_or in H as [H|[H|[]]]; [prop_tauto|now right].
Qed.

Lemma Set_of_sound (values : list number) (y : number) :
  In y (Set_of values) -> exists x, In x values /\ y = Set_stored x.
Proof using Type.
  unfold Set_of.
  assert (Hgen : forall set,
            In y (fold_left Set_add values set) ->
            In y set \/ exists x, In x values /\ y = Set_stored x).
  { induction values as [|x values IH]; intros set H; cbn [fold_left] in H;
      [prop_tauto|].
    apply IH in H as [H|(z & Hz & Hy)].
    - apply Set_add_sound in H as [H|H]; [prop_tauto|].
      right. exists x. split; [now left|exact H].
    - right. exists z. split; [now right|exact Hy]. }
  intros H. apply Hgen in H as [[]|H]. exact H.
Qed.

Lemma finalGrade_is_vote (grade : list number) (winner : number * Z) :
  finalGrade grade = Some winner ->
  exists vote, In vote grade /\ fst winner = Set_stored vote.
Proof using Type.
  unfold finalGrade, reduce. intros H.
  destruct (counterMap grade) as [|first entries] eqn:Hmap; [discriminate|].
  injection H as H.
  destruct (fold_laterOrGreater entries first) as (earlier & later & Heq & _).
  rewrite H in Heq.
  assert (Hw : In winner (counterMap grade)).
  { rewrite Hmap, Heq. apply in_or_app. right. left. reflexivity. }
  unfold counterMap in Hw. apply in_map_iff in Hw as (x & <- & Hx).
  cbn [fst]. now apply Set_of_sound.
Qed.

Lemma textStandard_of_finalGrade (text : jsstring) (winner : number * Z) :
  finalGrade (textStandard_grade text) = Some winner ->
  textStandard text true = Some (ConsensusNumber (fst winner)) /\
  exists formatted, textStandard text false = Some (ConsensusText formatted).
Proof.
  intros H. unfold textStandard. rewrite H. split; [reflexivity|].
  eexists. reflexivity.
Qed.


Lemma median_rule_8 (array : list number) :
  length array = 8%nat -> median_rule array = array !! 4%nat.
Proof. intros H. unfold median_rule. rewrite H. reflexivity. Qed.

(** X14. [textMedian] returns one of the eight scores it collects; it never
    averages and never returns [undefined]. *)
Theorem textMedian_returns_a_score (text : jsstring) :
  exists score,
    textMedian text = Some score /\ In score (textMedian_grade text).
Proof.
  assert (Hlen : length (Array_sort Num.sub (textMedian_grade text)) = 8%nat)
    by (rewrite Array_sort_length; reflexivity).
  destruct (lookup_lt_is_Some_2 (Array_sort Num.sub (textMedian_grade text)) 4)
    as [score Hscore]; [rewrite Hlen; lia|].
  exists score. split.
  - unfold textMedian. cbv zeta. rewrite (median_rule_8 _ Hlen). exact Hscore.
  - apply list_elem_of_In. rewrite <- (Array_sort_perm Num.sub).
    now apply list_elem_of_lookup_2 in Hscore.
Qed.

(** *** The grade tables *)

Lemma ltb_key (x y : number) :
  isNaN x = false -> isNaN y = false ->
  ((x <? y)%num = true <-> key_lt (order_key x) (order_key y)).
Proof.
  unfold Num.ltb, SFltb, key_lt.
  destruct x as [sx|sx| |sx mx ex], y as [sy|sy| |sy my ey];
    try discriminate; intros _ _;
    try destruct sx; try destruct sy; cbn [SFcompare order_key fst snd];
    try (split; [discriminate|lia]);
    try (split; [lia|reflexivity]);
    destruct (Z.compare_spec ex ey);
    change (Pos.compare_cont Eq mx my) with (mx ?= my)%positive;
    destruct (Pos.compare_spec mx my); cbn [CompOpp];
    split; intros; try discriminate; try reflexivity; lia.
Qed.

Lemma leb_key (x y : number) :
  isNaN x = false -> isNaN y = false ->
  ((x <=? y)%num = true <-> ~ key_lt (order_key y) (order_key x)).
Proof.
  unfold Num.leb, SFleb, key_lt.
  destruct x as [sx|sx| |sx mx ex], y as [sy|sy| |sy my ey];
    try discriminate; intros _ _;
    try destruct sx; try destruct sy; cbn [SFcompare order_key fst snd];
    try (split; [discriminate|lia]);
    try (split; [lia|reflexivity]);
    destruct (Z.compare_spec ex ey);
    change (Pos.compare_cont Eq mx my) with (mx ?= my)%positive;
    destruct (Pos.compare_spec mx my); cbn [CompOpp];
    split; intros; try discriminate; try reflexivity; lia.
Qed.

Lemma leb_numbers (x y : number) :
  (x <=? y)%num = true -> isNaN x = false /\ isNaN y = false.
Proof. destruct x, y; try discriminate; split; reflexivity. Qed.

Lemma ltb_numbers (x y : number) :
  (x <? y)%num = true -> isNaN x = false /\ isNaN y = false.
Proof. destruct x, y; try discriminate; split; reflexivity. Qed.

Ltac order_keys :=
  repeat match goal with
    | H : (_ <? _)%num = true |- _ =>
        apply ltb_key in H; [|assumption..]
    | H : (_ <? _)%num = false |- _ =>
        apply not_true_iff_false in H; rewrite ltb_key in H by assumption
    | H : (_ <=? _)%num = true |- _ =>
        apply leb_key in H; [|assumption..]
    | H : (_ <=? _)%num = false |- _ =>
        apply not_true_iff_false in H; rewrite leb_key in H by assumption
    end;
  unfold key_lt in *;
  repeat match goal with
    | H : context [order_key ?x] |- _ =>
        is_var x; destruct (order_key x) as [[? ?] ?]
    | |- context [order_key ?x] =>
        is_var x; destruct (order_key x) as [[? ?] ?]
    end;
  cbn [fst snd] in *.

Lemma leb_trans (a b c : number) :
  (a <=? b)%num = true -> (b <=? c)%num = true -> (a <=? c)%num = true.
Proof.
  intros Hab Hbc.
  destruct (leb_numbers _ _ Hab) as [Ha Hb], (leb_numbers _ _ Hbc) as [_ Hc].
  apply leb_key; [assumption..|]. order_keys. lia.
Qed.

Lemma leb_ltb_trans (a b c : number) :
  (a <=? b)%num = true -> (b <? c)%num = true -> (a <? c)%num = true.
Proof.
  intros Hab Hbc.
  destruct (leb_numbers _ _ Hab) as [Ha Hb], (ltb_numbers _ _ Hbc) as [_ Hc].
  apply ltb_key; [assumption..|]. order_keys. lia.
Qed.

Lemma ltb_leb_trans (a b c : number) :
  (a <? b)%num = true -> (b <=? c)%num = true -> (a <? c)%num = true.
Proof.
  intros Hab Hbc.
  destruct (ltb_numbers _ _ Hab) as [Ha Hb], (leb_numbers _ _ Hbc) as [_ Hc].
  apply ltb_key; [assumption..|]. order_keys. lia.
Qed.

Lemma ltb_not_leb (a b : number) :
  (a <? b)%num = true -> (b <=? a)%num = false.
Proof.
  intros Hab. destruct (ltb_numbers _ _ Hab) as [Ha Hb].
  apply not_true_iff_false. intros Hba. order_keys. lia.
Qed.

Lemma leb_not_ltb (a b : number) :
  (a <=? b)%num = true -> (b <? a)%num = false.
Proof.
  intros Hab. destruct (leb_numbers _ _ Hab) as [Ha Hb].
  apply not_true_iff_false. intros Hba. order_keys. lia.
Qed.

Lemma not_leb_ltb (a b : number) :
  isNaN a = false -> isNaN b = false ->
  (a <=? b)%num = false -> (b <? a)%num = true.
Proof.
  intros Ha Hb Hab. apply ltb_key; [assumption..|]. order_keys. lia.
Qed.

Ltac split_ifs :=
  repeat match goal with
         | |- context [if ?b then _ else _] => destruct b
         end.

(** One row of a table of upper bounds: when the lower score passes the
    test the goal is closed over the rows left for the higher score;
    otherwise the higher score fails the test too. *)
Ltac table_row test1 test2 trans H :=
  let T := fresh "T" in
  let E := fresh "E" in
  destruct test1 eqn:T;
  [ split_ifs; reflexivity
  | assert (test2 = false) as ->
      by (destruct test2 eqn:E;
          [rewrite (trans _ _ _ H E) in T; discriminate|reflexivity]) ].

(** X15. [daleChallToGrade] is monotone: a higher score never gives a lower
    grade. Its grades are 4, 5, 7, 9, 11, 13 and 16, and a score that is NaN
    (every comparison fails) falls through to 16. *)
Theorem daleChallToGrade_monotone :
  (forall score1 score2,
     (score1 <=? score2)%num = true ->
     (daleChallToGrade score1 <=? daleChallToGrade score2)%num = true) /\
  (forall score,
     In (daleChallToGrade score)
       [of_Z 4; of_Z 5; of_Z 7; of_Z 9; of_Z 11; of_Z 13; of_Z 16]) /\
  daleChallToGrade Num.NaN = of_Z 16.
Proof using Type.
  split; [|split; [|reflexivity]].
  - intros score1 score2 H. unfold daleChallToGrade.
    table_row (score1 <=? dec 49 1)%num (score2 <=? dec 49 1)%num leb_trans H.
    table_row (score1 <? dec 59 1)%num (score2 <? dec 59 1)%num leb_ltb_trans H.
    table_row (score1 <? dec 69 1)%num (score2 <? dec 69 1)%num leb_ltb_trans H.
    table_row (score1 <? dec 79 1)%num (score2 <? dec 79 1)%num leb_ltb_trans H.
    table_row (score1 <? dec 89 1)%num (score2 <? dec 89 1)%num leb_ltb_trans H.
    table_row (score1 <? dec 99 1)%num (score2 <? dec 99 1)%num leb_ltb_trans H.
    reflexivity.
  - intros score. unfold daleChallToGrade. split_ifs; cbn [In]; prop_tauto.
Qed.

Lemma below_lower_bound (score bound lower : number) :
  (score <? bound)%num = true -> (bound <=? lower)%num = true ->
  (score >=? lower)%num = false.
Proof. intros H Hle. apply ltb_not_leb. exact (ltb_leb_trans _ _ _ H Hle). Qed.

Lemma above_upper_bound (score bound upper : number) :
  (score >=? bound)%num = true -> (upper <=? bound)%num = true ->
  (score <? upper)%num = false.
Proof. intros H Hle. apply leb_not_ltb. exact (leb_trans _ _ _ Hle H). Qed.

(** One row of the Flesch table, for [score1 <= score2 < upper]: either the
    higher score is in the row, and the goal is closed over the rows left
    for the lower score, or both scores are under the row. *)
Ltac flesch_row score1 score2 upper lower H Hlt :=
  let E := fresh "E" in
  let Hlt2 := fresh "Hlt" in
  rewrite Hlt, (leb_ltb_trans _ _ _ H Hlt);
  destruct (score2 >=? lower)%num eqn:E; cbn [andb];
  [ split_ifs; reflexivity
  | assert (Hlt2 : (score2 <? lower)%num = true)
      by (apply not_leb_ltb;
          [reflexivity|exact (proj2 (leb_numbers _ _ H))|exact E]);
    rewrite (ltb_not_leb _ _ (leb_ltb_trans _ _ _ H Hlt2)); cbn [andb];
    clear Hlt E; rename Hlt2 into Hlt ].

(** X16. [fleschReadingEaseToGrade] answers with one of 5, 6, 7, 8.5, 11,
    13, 15 and 16. Below 100 a higher score never gives a higher grade; but
    the table has no row from 100 up, so a score of 100 or more (as the
    206.84 of a text without words) falls through to 16, the grade of the
    scores under 30 and of NaN. *)
Theorem fleschReadingEaseToGrade_table :
  (forall score,
     In (fleschReadingEaseToGrade score)
       [of_Z 5; of_Z 6; of_Z 7; dec 85 1; of_Z 11; of_Z 13; of_Z 15; of_Z 16]) /\
  (forall score,
     (score >=? of_Z 100)%num = true -> fleschReadingEaseToGrade score = of_Z 16) /\
  (forall score,
     (score <? of_Z 30)%num = true -> fleschReadingEaseToGrade score = of_Z 16) /\
  fleschReadingEaseToGrade Num.NaN = of_Z 16 /\
  (forall score1 score2,
     (score1 <=? score2)%num = true -> (score2 <? of_Z 100)%num = true ->
     (fleschReadingEaseToGrade score2 <=? fleschReadingEaseToGrade score1)%num
     = true).
Proof using Type.
  split; [|split; [|split; [|split; [reflexivity|]]]].
  - intros score. unfold fleschReadingEaseToGrade. split_ifs; cbn [In]; prop_tauto.
  - intros score H. unfold fleschReadingEaseToGrade.
    rewrite (above_upper_bound score (of_Z 100) (of_Z 100) H eq_refl),
      (above_upper_bound score (of_Z 100) (of_Z 90) H eq_refl),
      (above_upper_bound score (of_Z 100) (of_Z 80) H eq_refl),
      (above_upper_bound score (of_Z 100) (of_Z 70) H eq_refl),
      (above_upper_bound score (of_Z 100) (of_Z 60) H eq_refl),
      (above_upper_bound score (of_Z 100) (of_Z 50) H eq_refl),
      (above_upper_bound score (of_Z 100) (of_Z 40) H eq_refl).
    reflexivity.
  - intros score H. unfold fleschReadingEaseToGrade.
    rewrite (below_lower_bound score (of_Z 30) (of_Z 90) H eq_refl),
      (below_lower_bound score (of_Z 30) (of_Z 80) H eq_refl),
      (below_lower_bound score (of_Z 30) (of_Z 70) H eq_refl),
      (below_lower_bound score (of_Z 30) (of_Z 60) H eq_refl),
      (below_lower_bound score (of_Z 30) (of_Z 50) H eq_refl),
      (below_lower_bound score (of_Z 30) (of_Z 40) H eq_refl),
      (below_lower_bound score (of_Z 30) (of_Z 30) H eq_refl).
    rewrite !andb_false_r. reflexivity.
  - intros score1 score2 H Hlt. unfold fleschReadingEaseToGrade.
    flesch_row score1 score2 (of_Z 100) (of_Z 90) H Hlt.
    flesch_row score1 score2 (of_Z 90) (of_Z 80) H Hlt.
    flesch_row score1 score2 (of_Z 80) (of_Z 70) H Hlt.
    flesch_row score1 score2 (of_Z 70) (of_Z 60) H Hlt.
    flesch_row score1 score2 (of_Z 60) (of_Z 50) H Hlt.
    flesch_row score1 score2 (of_Z 50) (of_Z 40) H Hlt.
    flesch_row score1 score2 (of_Z 40) (of_Z 30) H Hlt.
    reflexivity.
Qed.

(** *** Integers as numbers *)

(** A positive count is a positive number: the conversion shifts out fewer
    bits than the integer has, so it never rounds to zero. *)
Lemma shr_1_div2 (mrs : shr_record) :
  0 <= shr_m mrs -> shr_m (shr_1 mrs) = shr_m mrs / 2.
Proof.
  destruct mrs as [m r s]. cbn [shr_m].
  destruct m as [|[q|q|]|q]; intros H; cbn [shr_1 shr_m];
    first [lia|rewrite <- Z.div2_div; reflexivity].
Qed.

Lemma iter_shr_1_div (n : positive) (mrs : shr_record) :
  0 <= shr_m mrs ->
  shr_m (SpecFloat.iter_pos shr_1 n mrs) = shr_m mrs / 2 ^ Z.pos n.
Proof.
  revert mrs. induction n as [n IH|n IH|]; intros mrs H; cbn [SpecFloat.iter_pos].
  - assert (H1 : 0 <= shr_m (shr_1 mrs))
      by (rewrite shr_1_div2 by exact H; apply Z.div_pos; lia).
    assert (H2 : 0 <= shr_m (SpecFloat.iter_pos shr_1 n (shr_1 mrs)))
      by (rewrite IH by exact H1; apply Z.div_pos; lia).
    rewrite (IH _ H2), (IH _ H1), shr_1_div2 by exact H.
    rewrite !Z.div_div by lia. f_equal.
    replace (Z.pos n~1) with (1 + (Z.pos n + Z.pos n)) by lia.
    rewrite !Z.pow_add_r by lia. change (2 ^ 1) with 2. ring.
  - assert (H2 : 0 <= shr_m (SpecFloat.iter_pos shr_1 n mrs))
      by (rewrite IH by exact H; apply Z.div_pos; lia).
    rewrite (IH _ H2), (IH _ H). rewrite Z.div_div by lia. f_equal.
    replace (Z.pos n~0) with (Z.pos n + Z.pos n) by lia.
    rewrite Z.pow_add_r by lia. reflexivity.
  - rewrite shr_1_div2 by exact H. reflexivity.
Qed.

Lemma digits2_pos_lower (m : positive) :
  2 ^ (Z.pos (digits2_pos m) - 1) <= Z.pos m.
Proof.
  induction m as [m IH|m IH|]; cbn [digits2_pos]; [| |cbn; lia].
  - rewrite Pos2Z.inj_succ.
    replace (Z.succ (Z.pos (digits2_pos m)) - 1)
      with (1 + (Z.pos (digits2_pos m) - 1)) by lia.
    rewrite Z.pow_add_r by lia. change (2 ^ 1) with 2.
    change (Z.pos m~1) with (2 * Z.pos m + 1). lia.
  - rewrite Pos2Z.inj_succ.
    replace (Z.succ (Z.pos (digits2_pos m)) - 1)
      with (1 + (Z.pos (digits2_pos m) - 1)) by lia.
    rewrite Z.pow_add_r by lia. change (2 ^ 1) with 2.
    change (Z.pos m~0) with (2 * Z.pos m). lia.
Qed.

Lemma shr_fexp_positive (m : positive) (e : Z) (l : location) :
  -1000 <= e ->
  0 < shr_m (fst (shr_fexp prec emax (Z.pos m) e l))
  /\ e <= snd (shr_fexp prec emax (Z.pos m) e l).
Proof.
  intros He. unfold shr_fexp, shr, fexp, emin, prec, emax. cbn [Zdigits2].
  assert (Hm : shr_m (shr_record_of_loc (Z.pos m) l) = Z.pos m)
    by (destruct l as [|[| |]]; reflexivity).
  pose proof (digits2_pos_lower m) as Hd.
  set (d := Z.pos (digits2_pos m)) in *.
  assert (Hd1 : 1 <= d) by (unfold d; lia).
  replace (Z.max (d + e - 53) (3 - 1024 - 53)) with (d + e - 53) by lia.
  destruct (d + e - 53 - e) as [|n|n] eqn:Hn; cbn [fst snd]; rewrite ?Hm; try lia.
  rewrite iter_shr_1_div by (rewrite Hm; lia). rewrite Hm. split; [|lia].
  apply Z.div_str_pos. split; [apply Z.pow_pos_nonneg; lia|].
  transitivity (2 ^ (d - 1)); [|exact Hd].
  apply Z.pow_le_mono_r; lia.
Qed.

Lemma binary_round_aux_positive (m : positive) (e : Z) (l : location) :
  -1000 <= e ->
  (Num.zero <? binary_round_aux prec emax false (Z.pos m) e l)%num = true.
Proof.
  intros He. unfold binary_round_aux.
  destruct (shr_fexp_positive m e l He) as [H1 He1].
  destruct (shr_fexp prec emax (Z.pos m) e l) as [mrs1 e1]. cbn [fst snd] in *.
  assert (H2 : 0 < round_nearest_even (shr_m mrs1) (loc_of_shr_record mrs1)).
  { unfold round_nearest_even.
    destruct (loc_of_shr_record mrs1) as [|[| |]]; try lia.
    destruct (Z.even (shr_m mrs1)); lia. }
  destruct (round_nearest_even (shr_m mrs1) (loc_of_shr_record mrs1))
    as [|m2|m2]; try lia.
  destruct (shr_fexp_positive m2 e1 loc_Exact ltac:(lia)) as [H3 _].
  destruct (shr_fexp prec emax (Z.pos m2) e1 loc_Exact) as [mrs2 e2].
  cbn [fst] in H3.
  destruct (shr_m mrs2); try lia.
  destruct (Z.leb _ _); reflexivity.
Qed.

Lemma of_Z_positive (z : Z) : 0 < z -> (Num.zero <? of_Z z)%num = true.
Proof.
  intros Hz. destruct z as [|p|p]; try lia.
  unfold of_Z, binary_normalize, binary_round, shl_align.
  destruct (fexp prec emax (Z.pos (digits2_pos p) + 0) - 0) as [|q|q] eqn:Hq;
    apply binary_round_aux_positive; try lia.
  unfold fexp, emin, prec, emax in *. lia.
Qed.

Lemma sentenceCount_positive (text : jsstring) : 0 < sentenceCount text.
Proof.
  unfold sentenceCount. cbv zeta.
  match goal with |- context [?a >? 1] => destruct (Z.gtb_spec a 1) end; lia.
Qed.

(** X17. [rix] tests its ratio for NaN before it rounds it, and the rounding
    turns a ratio of [0] into NaN: on every text without a word longer than
    six characters [rix] returns NaN, not [0.0]. *)
Theorem rix_NaN_without_long_words (text : jsstring) :
  longWordCount (split text) = 0 -> isNaN (rix text) = true.
Proof.
  intros H. unfold rix. rewrite H.
  pose proof (of_Z_positive _ (sentenceCount_positive text)) as Hpos.
  destruct (of_Z (sentenceCount text)) as [s|[|]| |[|] m e];
    try discriminate; reflexivity.
Qed.


(** *** When [legacyRound] gives NaN *)

Lemma shr_fexp_nonneg (m e : Z) (l : location) :
  0 <= m -> 0 <= shr_m (fst (shr_fexp prec emax m e l)).
Proof.
  intros Hm. unfold shr_fexp, shr.
  assert (H0 : shr_m (shr_record_of_loc m l) = m)
    by (destruct l as [|[| |]]; reflexivity).
  destruct (fexp prec emax (Zdigits2 m + e) - e) as [|n|n]; cbn [fst];
    rewrite ?iter_shr_1_div by (rewrite H0; exact Hm); rewrite H0;
    [exact Hm|apply Z.div_pos; [exact Hm|apply Z.pow_pos_nonneg; lia]|exact Hm].
Qed.

Lemma binary_round_aux_signed (s : bool) (m e : Z) (l : location) :
  0 <= m -> signed s (binary_round_aux prec emax s m e l) = true.
Proof.
  intros Hm. unfold binary_round_aux.
  pose proof (shr_fexp_nonneg m e l Hm) as H1.
  destruct (shr_fexp prec emax m e l) as [mrs1 e1]. cbn [fst] in H1.
  assert (H2 : 0 <= round_nearest_even (shr_m mrs1) (loc_of_shr_record mrs1)).
  { unfold round_nearest_even.
    destruct (loc_of_shr_record mrs1) as [|[| |]]; try lia.
    destruct (Z.even (shr_m mrs1)); lia. }
  pose proof (shr_fexp_nonneg _ e1 loc_Exact H2) as H3.
  destruct (shr_fexp prec emax _ e1 loc_Exact) as [mrs2 e2]. cbn [fst] in H3.
  destruct (shr_m mrs2) as [|m2|m2]; [| |lia].
  - cbn. apply eqb_reflx.
  - destruct (Z.leb _ _); cbn; apply eqb_reflx.
Qed.

Lemma mul_finite_signed (s : bool) (m : positive) (e : Z) (s' : bool)
    (y : number) :
  signed s' y = true -> signed (xorb s s') (S754_finite s m e * y)%num = true.
Proof.
  destruct y as [sy|sy| |sy my ey]; cbn [signed]; intros H;
    try discriminate; apply eqb_prop in H; subst sy.
  - cbn. apply eqb_reflx.
  - cbn. apply eqb_reflx.
  - unfold Num.mul, SFmul. apply binary_round_aux_signed. lia.
Qed.

Lemma div_finite_signed (s : bool) (x : number) (s' : bool) (m : positive)
    (e : Z) :
  signed s x = true -> signed (xorb s s') (x / S754_finite s' m e)%num = true.
Proof.
  destruct x as [sx|sx| |sx mx ex]; cbn [signed]; intros H;
    try discriminate; apply eqb_prop in H; subst sx.
  - cbn. apply eqb_reflx.
  - cbn. apply eqb_reflx.
  - unfold Num.div, SFdiv, SFdiv_core_binary.
    match goal with |- context [Z.div_eucl ?a ?b] =>
      pose proof (Z.div_eucl_eq a b ltac:(lia)) as Heq;
      pose proof (Z.mod_pos_bound a b ltac:(lia)) as Hr;
      assert (Ha : 0 <= a);
      [|unfold Z.modulo in Hr; destruct (Z.div_eucl a b) as [q r]]
    end.
    { match goal with |- 0 <= match ?z with _ => _ end => destruct z end;
        try lia. apply Z.shiftl_nonneg. lia. }
    apply binary_round_aux_signed. nia.
Qed.

Lemma add_signed (s : bool) (x y : number) :
  signed s x = true -> signed s y = true -> isNaN (x + y)%num = false.
Proof.
  destruct x as [sx|sx| |sx mx ex], y as [sy|sy| |sy my ey]; cbn [signed];
    intros Hx Hy; try discriminate;
    apply eqb_prop in Hx; apply eqb_prop in Hy; subst sx sy;
    unfold Num.add, SFadd; try reflexivity; try (now destruct s).
  unfold binary_normalize.
  destruct (cond_Zopp _ _ + cond_Zopp _ _) as [|p|p]; [reflexivity| |];
    unfold binary_round;
    match goal with |- context [shl_align ?a ?b ?c] =>
      destruct (shl_align a b c) as [mz ez] end;
    match goal with |- isNaN (binary_round_aux _ _ ?b ?m ?e ?l) = false =>
      pose proof (binary_round_aux_signed b m e l ltac:(lia)) as H;
      destruct (binary_round_aux prec emax b m e l);
        [reflexivity..|discriminate|reflexivity]
    end.
Qed.

Lemma signed_not_NaN (s : bool) (x : number) :
  signed s x = true -> isNaN x = false.
Proof. destruct x; [reflexivity..|discriminate|reflexivity]. Qed.

Lemma not_NaN_signed (x : number) :
  isNaN x = false -> exists s, signed s x = true.
Proof.
  destruct x as [s|s| |s m e]; intros H; try discriminate;
    exists s; apply eqb_reflx.
Qed.

Lemma of_Z_not_NaN (z : Z) : isNaN (of_Z z) = false.
Proof.
  unfold of_Z, binary_normalize.
  destruct z as [|p|p]; [reflexivity| |]; unfold binary_round;
    match goal with |- context [shl_align ?a ?b ?c] =>
      destruct (shl_align a b c) as [mz ez] end;
    eapply signed_not_NaN, binary_round_aux_signed; lia.
Qed.

Lemma floor_not_NaN (x : number) : isNaN (Num.floor x) = isNaN x.
Proof.
  destruct x as [s|s| |s m e]; try reflexivity.
  unfold Num.floor. destruct (0 <=? e); [reflexivity|].
  destruct s; apply of_Z_not_NaN.
Qed.

Lemma pow10_finite (points : nat) :
  (points <= 2)%nat -> exists m e, pow10 points = S754_finite false m e.
Proof.
  intros H.
  destruct points as [|[|[|points]]]; [| | |lia];
    vm_compute; eexists; eexists; reflexivity.
Qed.

(** X18. With the precisions the code uses (0, 1 and 2) [legacyRound]
    returns NaN on the zeros, the infinities and NaN, and on nothing else:
    every finite number other than zero is rounded to a number ([copySign]
    finds its sign, and no later step gives NaN). *)
Theorem legacyRound_NaN_iff (x : number) (points : nat) :
  (points <= 2)%nat ->
  isNaN (legacyRound x points) = degenerate x.
Proof.
  intros Hpoints.
  destruct (degenerate x) eqn:Hclass.
  { now rewrite legacyRound_degenerate. }
  destruct x as [s|s| |s m e]; try discriminate.
  destruct (pow10_finite points Hpoints) as (mp & ep & Hp).
  unfold legacyRound. cbv zeta. rewrite Hp.
  assert (Hhalf : exists m5 e5, dec 5 1 = S754_finite false m5 e5)
    by (vm_compute; eexists; eexists; reflexivity).
  destruct Hhalf as (m5 & e5 & Hhalf).
  assert (Hmul : signed s (S754_finite s m e * S754_finite false mp ep)%num
                 = true).
  { rewrite <- (xorb_false_r s) at 1. now apply mul_finite_signed. }
  assert (Hsign : signed s (copySign (dec 5 1) (S754_finite s m e)) = true).
  { unfold copySign. rewrite Hhalf.
    change s with (xorb false s) at 1. apply mul_finite_signed.
    rewrite <- (xorb_false_r s) at 1.
    apply (div_finite_signed s (S754_finite s m e) false m e).
    apply eqb_reflx. }
  pose proof (add_signed s _ _ Hmul Hsign) as Hsum.
  rewrite <- floor_not_NaN in Hsum.
  apply not_NaN_signed in Hsum as (s' & Hsum).
  eapply signed_not_NaN, div_finite_signed, Hsum.
Qed.

(** *** Polysyllables *)

Lemma fold_count (p : jsstring -> bool) (words : list jsstring) (count : Z) :
  fold_left (fun count word => if p word then count + 1 else count) words count
  = count + Z.of_nat (length (List.filter p words)).
Proof.
  revert count. induction words as [|word words IH]; intros count;
    cbn [fold_left List.filter]; [cbn; lia|].
  rewrite IH. destruct (p word); cbn [length]; lia.
Qed.

(** X19. [polySyllableCount] counts the tokens of [split] whose syllable
    count is 3 or more, one for each: it lies between 0 and the number of
    tokens, which is [lexiconCount] with the punctuation kept. *)
Theorem polySyllableCount_bounds (text : jsstring) :
  polySyllableCount text
  = Z.of_nat
      (length (List.filter (fun word => syllableCount word >=? 3) (split text)))
  /\ 0 <= polySyllableCount text <= lexiconCount text false.
Proof.
  assert (Hcount : polySyllableCount text
                   = Z.of_nat (length (List.filter
                       (fun word => syllableCount word >=? 3) (split text)))).
  { unfold polySyllableCount. cbv zeta.
    rewrite (fold_count (fun word => syllableCount word >=? 3)). lia. }
  split; [exact Hcount|]. rewrite Hcount.
  rewrite lexiconCount_split.
  pose proof (filter_length_le (fun word => syllableCount word >=? 3)
                (split text)). lia.
Qed.


(** *** Valid numbers

    Every quotient is a valid binary64 number, whatever its operands; the
    scores are quotients, zeros and constants. *)

Lemma digits2_pos_upper (m : positive) :
  Z.pos m < 2 ^ Z.pos (digits2_pos m).
Proof.
  induction m as [m IH|m IH|]; cbn [digits2_pos]; [| |cbn; lia];
    rewrite Pos2Z.inj_succ, Z.pow_succ_r by lia; lia.
Qed.

Lemma digits2_pos_unique (m : positive) (k : Z) :
  2 ^ (k - 1) <= Z.pos m < 2 ^ k -> Z.pos (digits2_pos m) = k.
Proof.
  intros [Hlow Hhigh].
  pose proof (digits2_pos_lower m) as Hl.
  pose proof (digits2_pos_upper m) as Hu.
  set (d := Z.pos (digits2_pos m)) in *.
  assert (Hd : 1 <= d) by (unfold d; lia).
  destruct (Z.lt_trichotomy d k) as [Hlt|[Heq|Hgt]]; [|exact Heq|].
  - assert (2 ^ d <= 2 ^ (k - 1)) by (apply Z.pow_le_mono_r; lia). lia.
  - destruct (Z.le_gt_cases 0 k) as [Hk|Hk].
    + assert (2 ^ k <= 2 ^ (d - 1)) by (apply Z.pow_le_mono_r; lia). lia.
    + rewrite (Z.pow_neg_r 2 k) in Hhigh by lia. lia.
Qed.

(** The mantissa and the exponent [shr_fexp] returns. *)
Lemma shr_fexp_value (m e : Z) (l : location) :
  0 <= m ->
  let f := fexp prec emax (Zdigits2 m + e) in
  shr_m (fst (shr_fexp prec emax m e l)) = m / 2 ^ Z.max 0 (f - e)
  /\ snd (shr_fexp prec emax m e l) = Z.max e f.
Proof.
  intros Hm f. unfold shr_fexp, shr. fold f.
  assert (H0 : shr_m (shr_record_of_loc m l) = m)
    by (destruct l as [|[| |]]; reflexivity).
  destruct (f - e) as [|n|n] eqn:Hn; cbn [fst snd].
  - rewrite H0. cbn. rewrite Z.div_1_r. split; [reflexivity|lia].
  - rewrite iter_shr_1_div by (rewrite H0; exact Hm). rewrite H0.
    split; [reflexivity|lia].
  - rewrite H0. cbn. rewrite Z.div_1_r. split; [reflexivity|lia].
Qed.

Lemma Zdigits2_bounds (m : Z) :
  0 < m -> 2 ^ (Zdigits2 m - 1) <= m < 2 ^ Zdigits2 m.
Proof.
  destruct m as [|p|p]; intros H; try lia. cbn [Zdigits2].
  split; [apply digits2_pos_lower|apply digits2_pos_upper].
Qed.

Lemma Zdigits2_unique (m k : Z) :
  2 ^ (k - 1) <= m < 2 ^ k -> 0 < m -> Zdigits2 m = k.
Proof.
  destruct m as [|p|p]; intros H Hm; try lia. cbn [Zdigits2].
  now apply digits2_pos_unique.
Qed.

Lemma Zdigits2_nonneg (m : Z) : 0 <= Zdigits2 m.
Proof. destruct m; cbn; lia. Qed.

Lemma shr_fexp_canonical (m e : Z) (l : location) :
  0 <= m -> e <= fexp prec emax (Zdigits2 m + e) ->
  canonical_pair (shr_m (fst (shr_fexp prec emax m e l)))
    (snd (shr_fexp prec emax m e l)).
Proof.
  intros Hm He.
  destruct (shr_fexp_value m e l Hm) as [-> ->]. cbv zeta.
  set (f := fexp prec emax (Zdigits2 m + e)) in *.
  rewrite !Z.max_r by lia.
  assert (Hpow : 0 < 2 ^ (f - e)) by (apply Z.pow_pos_nonneg; lia).
  split; [apply Z.div_pos; lia|].
  destruct (Z.eq_dec m 0) as [->|Hm0].
  { rewrite Z.div_0_l by lia. cbn [Zdigits2] in *.
    unfold f, fexp, emin, prec, emax in *. lia. }
  pose proof (Zdigits2_bounds m ltac:(lia)) as [Hlow Hhigh].
  set (d := Zdigits2 m) in *.
  destruct (Z.lt_ge_cases (f - e) d) as [Hn|Hn].
  - assert (Hdigits : Zdigits2 (m / 2 ^ (f - e)) = d - (f - e)).
    { assert (H1 : 2 ^ (d - 1) = 2 ^ (d - (f - e) - 1) * 2 ^ (f - e))
        by (rewrite <- Z.pow_add_r by lia; f_equal; lia).
      assert (H2 : 2 ^ d = 2 ^ (d - (f - e)) * 2 ^ (f - e))
        by (rewrite <- Z.pow_add_r by lia; f_equal; lia).
      assert (H3 : 2 ^ (d - (f - e) - 1) <= m / 2 ^ (f - e))
        by (apply Z.div_le_lower_bound; lia).
      assert (H4 : m / 2 ^ (f - e) < 2 ^ (d - (f - e)))
        by (apply Z.div_lt_upper_bound; lia).
      assert (0 < 2 ^ (d - (f - e) - 1)) by (apply Z.pow_pos_nonneg; lia).
      apply Zdigits2_unique; lia. }
    rewrite Hdigits. replace (d - (f - e) + f) with (d + e) by lia.
    reflexivity.
  - assert (Hzero : m / 2 ^ (f - e) = 0).
    { apply Z.div_small. split; [lia|].
      assert (2 ^ d <= 2 ^ (f - e)) by (apply Z.pow_le_mono_r; lia). lia. }
    rewrite Hzero. cbn [Zdigits2].
    pose proof (Zdigits2_nonneg m).
    unfold f, fexp, emin, prec, emax in *. fold d in Hn |- *. lia.
Qed.

Lemma round_nearest_even_canonical (m e : Z) (l : location) :
  canonical_pair m e ->
  let m' := round_nearest_even m l in
  0 <= m' /\ e <= fexp prec emax (Zdigits2 m' + e).
Proof.
  intros [Hm He]. cbv zeta.
  assert (Hcases : round_nearest_even m l = m \/ round_nearest_even m l = m + 1).
  { unfold round_nearest_even. destruct l as [|[| |]]; auto.
    destruct (Z.even m); auto. }
  destruct Hcases as [-> | ->]; [split; [exact Hm|rewrite He; lia]|].
  split; [lia|].
  assert (Hmono : Zdigits2 m <= Zdigits2 (m + 1)).
  { destruct (Z.eq_dec m 0) as [->|Hm0]; [change (0 <= 1); lia|].
    pose proof (Zdigits2_bounds m ltac:(lia)) as [Hlow _].
    pose proof (Zdigits2_bounds (m + 1) ltac:(lia)) as [_ Hhigh].
    destruct (Z.le_gt_cases (Zdigits2 m) (Zdigits2 (m + 1))) as [H|H];
      [exact H|].
    pose proof (Zdigits2_nonneg (m + 1)).
    assert (2 ^ Zdigits2 (m + 1) <= 2 ^ (Zdigits2 m - 1))
      by (apply Z.pow_le_mono_r; lia).
    lia. }
  unfold fexp, emin, prec, emax in *. lia.
Qed.

Lemma binary_round_aux_valid (s : bool) (m e : Z) (l : location) :
  0 <= m -> e <= fexp prec emax (Zdigits2 m + e) ->
  valid_binary prec emax (binary_round_aux prec emax s m e l) = true.
Proof.
  intros Hm He. unfold binary_round_aux.
  pose proof (shr_fexp_canonical m e l Hm He) as H1.
  destruct (shr_fexp prec emax m e l) as [mrs1 e1]. cbn [fst snd] in H1.
  destruct (round_nearest_even_canonical _ _ (loc_of_shr_record mrs1) H1)
    as [Hm2 He2].
  pose proof (shr_fexp_canonical _ _ loc_Exact Hm2 He2) as [H3 H4].
  destruct (shr_fexp prec emax _ e1 loc_Exact) as [mrs2 e2].
  cbn [fst snd] in H3, H4.
  destruct (shr_m mrs2) as [|m3|m3]; [reflexivity| |lia].
  destruct (Z.leb_spec e2 (emax - prec)) as [Hle|Hgt]; [|reflexivity].
  cbn [valid_binary]. unfold bounded, canonical_mantissa.
  cbn [Zdigits2] in H4. rewrite H4, Z.eqb_refl.
  apply Z.leb_le. exact Hle.
Qed.

Lemma Zdigits2_lower (m k : Z) : 2 ^ (k - 1) <= m -> 0 < m -> k <= Zdigits2 m.
Proof.
  intros Hk Hm. pose proof (Zdigits2_bounds m Hm) as [_ Hhigh].
  pose proof (Zdigits2_nonneg m).
  destruct (Z.le_gt_cases k (Zdigits2 m)) as [H1|H1]; [exact H1|].
  assert (2 ^ Zdigits2 m <= 2 ^ (k - 1)) by (apply Z.pow_le_mono_r; lia).
  lia.
Qed.

Lemma SFdiv_core_binary_canonical (m1 m2 : positive) (e1 e2 : Z) :
  let '(q, e, l) := SFdiv_core_binary prec emax (Z.pos m1) e1 (Z.pos m2) e2 in
  0 <= q /\ e <= fexp prec emax (Zdigits2 q + e).
Proof.
  unfold SFdiv_core_binary.
  set (d1 := Zdigits2 (Z.pos m1)). set (d2 := Zdigits2 (Z.pos m2)).
  set (e := Z.min (fexp prec emax (d1 + e1 - (d2 + e2))) (e1 - e2)).
  set (s := e1 - e2 - e).
  assert (Hs : 0 <= s) by (unfold s, e; lia).
  set (m := match s with
            | 0 => Z.pos m1
            | Z.pos _ => Z.shiftl (Z.pos m1) s
            | Z.neg _ => 0
            end).
  assert (Hm : m = Z.pos m1 * 2 ^ s).
  { unfold m. destruct s as [|p|p]; [lia| |lia].
    now rewrite Z.shiftl_mul_pow2 by lia. }
  pose proof (Z.div_eucl_eq m (Z.pos m2) ltac:(lia)) as Heq.
  pose proof (Z.mod_pos_bound m (Z.pos m2) ltac:(lia)) as Hr.
  assert (Hq : fst (Z.div_eucl m (Z.pos m2)) = m / Z.pos m2) by reflexivity.
  destruct (Z.div_eucl m (Z.pos m2)) as [q r]. cbn [fst] in Hq. subst q.
  assert (Hpow : 0 < 2 ^ s) by (apply Z.pow_pos_nonneg; lia).
  assert (Hq0 : 0 <= m / Z.pos m2) by (apply Z.div_pos; lia).
  split; [exact Hq0|].
  destruct (Z.le_gt_cases e (emin prec emax)) as [Hlow|Hhigh].
  { unfold fexp. lia. }
  assert (Hdigits : 53 <= d1 + s - d2).
  { unfold s, e, fexp, emin, prec, emax in *. lia. }
  pose proof (Zdigits2_bounds (Z.pos m1) ltac:(lia)) as [Hl1 _].
  pose proof (Zdigits2_bounds (Z.pos m2) ltac:(lia)) as [_ Hh2].
  fold d1 in Hl1. fold d2 in Hh2.
  assert (Hd1 : 1 <= d1) by (unfold d1; cbn; lia).
  assert (Hd2 : 1 <= d2) by (unfold d2; cbn; lia).
  assert (Hbig : 2 ^ (d1 + s - d2 - 1) <= m / Z.pos m2).
  { apply Z.div_le_lower_bound; [lia|]. rewrite Hm.
    assert (H1 : 2 ^ (d1 - 1) * 2 ^ s = 2 ^ d2 * 2 ^ (d1 + s - d2 - 1)).
    { rewrite <- !Z.pow_add_r by lia. f_equal. lia. }
    assert (0 < 2 ^ (d1 + s - d2 - 1)) by (apply Z.pow_pos_nonneg; lia).
    nia. }
  assert (0 < 2 ^ (d1 + s - d2 - 1)) by (apply Z.pow_pos_nonneg; lia).
  pose proof (Zdigits2_lower (m / Z.pos m2) (d1 + s - d2) Hbig ltac:(lia)).
  unfold s, e, fexp, emin, prec, emax in *. lia.
Qed.

(** Whatever the operands, a quotient is a valid binary64 number. *)
Lemma div_valid (x y : number) : valid_binary prec emax (x / y)%num = true.
Proof.
  destruct x as [sx|sx| |sx mx ex], y as [sy|sy| |sy my ey]; try reflexivity.
  unfold Num.div, SFdiv.
  pose proof (SFdiv_core_binary_canonical mx my ex ey) as H.
  destruct (SFdiv_core_binary prec emax (Z.pos mx) ex (Z.pos my) ey)
    as [[q e] l].
  now apply binary_round_aux_valid.
Qed.

Lemma iter_xO_pow (m d : positive) :
  Z.pos (Pos.iter xO m d) = Z.pos m * 2 ^ Z.pos d.
Proof.
  induction d as [|d IH] using Pos.peano_ind.
  - cbn [Pos.iter]. lia.
  - rewrite Pos.iter_succ, Pos2Z.inj_succ, Z.pow_succ_r by lia.
    rewrite Pos2Z.inj_xO, IH. lia.
Qed.

Lemma shl_align_value (m : positive) (e ez : Z) :
  ez <= e -> Z.pos (fst (shl_align m e ez)) = Z.pos m * 2 ^ (e - ez).
Proof.
  intros H. unfold shl_align.
  destruct (ez - e) as [|d|d] eqn:Hd; cbn [fst]; try lia.
  - replace (e - ez) with 0 by lia. lia.
  - rewrite iter_xO_pow. f_equal. f_equal. lia.
Qed.

Lemma shl_align_exponent (m : positive) (e ez : Z) :
  snd (shl_align m e ez) = Z.min e ez.
Proof.
  unfold shl_align. destruct (ez - e) as [|d|d] eqn:Hd; cbn [snd]; lia.
Qed.

Lemma shr_fexp_nonzero (m e : Z) (l : location) :
  0 < m -> emin prec emax <= e ->
  0 < shr_m (fst (shr_fexp prec emax m e l))
  /\ emin prec emax <= snd (shr_fexp prec emax m e l).
Proof.
  intros Hm He.
  destruct (shr_fexp_value m e l ltac:(lia)) as [-> ->]. cbv zeta.
  pose proof (Zdigits2_bounds m Hm) as [Hlow _].
  set (d := Zdigits2 m) in *.
  assert (Hd : 1 <= d).
  { unfold d. destruct m; cbn; lia. }
  split; [|lia].
  set (n := Z.max 0 (fexp prec emax (d + e) - e)).
  assert (Hn : 0 <= n <= d - 1).
  { unfold n, fexp, emin, prec, emax in *. lia. }
  apply Z.div_str_pos. split; [apply Z.pow_pos_nonneg; lia|].
  transitivity (2 ^ (d - 1)); [apply Z.pow_le_mono_r; lia|exact Hlow].
Qed.

Lemma binary_round_aux_nonzero (s : bool) (m : positive) (e : Z)
    (l : location) :
  emin prec emax <= e ->
  strictly_signed s (binary_round_aux prec emax s (Z.pos m) e l).
Proof.
  intros He. unfold binary_round_aux.
  destruct (shr_fexp_nonzero (Z.pos m) e l ltac:(lia) He) as [H1 He1].
  destruct (shr_fexp prec emax (Z.pos m) e l) as [mrs1 e1].
  cbn [fst snd] in *.
  assert (H2 : 0 < round_nearest_even (shr_m mrs1) (loc_of_shr_record mrs1)).
  { unfold round_nearest_even.
    destruct (loc_of_shr_record mrs1) as [|[| |]]; try lia.
    destruct (Z.even (shr_m mrs1)); lia. }
  destruct (shr_fexp_nonzero _ e1 loc_Exact H2 He1) as [H3 _].
  destruct (shr_fexp prec emax _ e1 loc_Exact) as [mrs2 e2].
  cbn [fst] in H3.
  destruct (shr_m mrs2); try lia.
  destruct (Z.leb _ _); destruct s; repeat split.
Qed.

Lemma binary_normalize_sign (d e : Z) :
  emin prec emax <= e ->
  let r := binary_normalize prec emax d e false in
  (r <? Num.zero)%num = (d <? 0) /\ (Num.zero <? r)%num = (0 <? d)
  /\ isNaN r = false.
Proof.
  intros He. cbv zeta. unfold binary_normalize.
  destruct d as [|p|p]; [repeat split| |]; unfold binary_round;
    match goal with |- context [shl_align ?a ?b ?c] =>
      pose proof (shl_align_exponent a b c) as Hexp;
      destruct (shl_align a b c) as [mz ez] end;
    cbn [snd] in Hexp;
    match goal with |- context [binary_round_aux _ _ ?s (Z.pos ?m) ?e ?l] =>
      destruct (binary_round_aux_nonzero s m e l) as (H1 & H2 & H3) end;
    try (unfold fexp, emin, prec, emax in *; lia);
    rewrite H1, H2, H3; repeat split.
Qed.

Lemma canonical_mantissa_bounds (m : positive) (e : Z) :
  canonical_mantissa prec emax m e = true ->
  emin prec emax <= e
  /\ Z.pos m < 2 ^ 53
  /\ (emin prec emax < e -> 2 ^ 52 <= Z.pos m).
Proof.
  unfold canonical_mantissa. intros H. apply Z.eqb_eq in H.
  pose proof (digits2_pos_lower m) as Hlow.
  pose proof (digits2_pos_upper m) as Hhigh.
  set (d := Z.pos (digits2_pos m)) in *.
  assert (Hd : 1 <= d) by (unfold d; lia).
  unfold fexp, emin, prec, emax in *.
  split; [lia|]. split.
  - assert (2 ^ d <= 2 ^ 53) by (apply Z.pow_le_mono_r; lia). lia.
  - intros He. replace d with 53 in Hlow by lia. exact Hlow.
Qed.

Lemma canonical_lt (mx my : positive) (ex ey : Z) :
  canonical_mantissa prec emax mx ex = true ->
  canonical_mantissa prec emax my ey = true ->
  ex < ey -> Z.pos mx < Z.pos my * 2 ^ (ey - ex).
Proof.
  intros Hx Hy He.
  destruct (canonical_mantissa_bounds _ _ Hx) as (Hex & Hmx & _).
  destruct (canonical_mantissa_bounds _ _ Hy) as (_ & _ & Hmy).
  specialize (Hmy ltac:(lia)).
  assert (2 ^ 1 <= 2 ^ (ey - ex)) by (apply Z.pow_le_mono_r; lia).
  change (2 ^ 1) with 2 in *. change (2 ^ 53) with (2 ^ 52 * 2) in Hmx. nia.
Qed.

(** *** The comparator [a - b]

    On valid numbers the sign of the difference is the order. *)
Lemma sub_finite_order (sx sy : bool) (mx my : positive) (ex ey : Z) :
  let x := S754_finite sx mx ex in
  let y := S754_finite sy my ey in
  valid_binary prec emax x = true -> valid_binary prec emax y = true ->
  (x - y <? Num.zero)%num = (x <? y)%num
  /\ (Num.zero <? x - y)%num = (y <? x)%num
  /\ isNaN (x - y)%num = false.
Proof.
  cbv zeta. cbn [valid_binary]. unfold bounded.
  intros Hx Hy.
  apply andb_prop in Hx as [Hx _]. apply andb_prop in Hy as [Hy _].
  destruct (canonical_mantissa_bounds _ _ Hx) as (Hex & _ & _).
  destruct (canonical_mantissa_bounds _ _ Hy) as (Hey & _ & _).
  unfold Num.sub, SFsub.
  set (ez := Z.min ex ey).
  rewrite !shl_align_value by (unfold ez; lia).
  destruct (binary_normalize_sign
              (cond_Zopp sx (Z.pos mx * 2 ^ (ex - ez))
               - cond_Zopp sy (Z.pos my * 2 ^ (ey - ez))) ez
              ltac:(unfold ez; lia)) as (-> & -> & ->).
  assert (Hlt : ex < ey -> Z.pos mx * 2 ^ (ex - ez) < Z.pos my * 2 ^ (ey - ez)).
  { intros He. unfold ez. rewrite Z.min_l by lia.
    rewrite Z.sub_diag, Z.mul_1_r. now apply canonical_lt. }
  assert (Hgt : ey < ex -> Z.pos my * 2 ^ (ey - ez) < Z.pos mx * 2 ^ (ex - ez)).
  { intros He. unfold ez. rewrite Z.min_r by lia.
    rewrite Z.sub_diag, Z.mul_1_r. now apply canonical_lt. }
  assert (Heq : ex = ey ->
            Z.pos mx * 2 ^ (ex - ez) = Z.pos mx
            /\ Z.pos my * 2 ^ (ey - ez) = Z.pos my).
  { intros He. unfold ez. rewrite He, Z.min_id, Z.sub_diag. lia. }
  assert (Ha : 0 < Z.pos mx * 2 ^ (ex - ez)).
  { apply Z.mul_pos_pos; [lia|apply Z.pow_pos_nonneg; unfold ez; lia]. }
  assert (Hb : 0 < Z.pos my * 2 ^ (ey - ez)).
  { apply Z.mul_pos_pos; [lia|apply Z.pow_pos_nonneg; unfold ez; lia]. }
  revert Hlt Hgt Heq Ha Hb.
  generalize (Z.pos mx * 2 ^ (ex - ez)) as a.
  generalize (Z.pos my * 2 ^ (ey - ez)) as b.
  intros b a Hlt Hgt Heq Ha Hb.
  unfold Num.ltb, SFltb, SFcompare.
  change (Pos.compare_cont Eq mx my) with (mx ?= my)%positive.
  change (Pos.compare_cont Eq my mx) with (my ?= mx)%positive.
  rewrite (Pos.compare_antisym mx my), (Z.compare_antisym ex ey).
  split; [|split; [|reflexivity]];
    destruct sx, sy; cbn [cond_Zopp];
    destruct (Z.compare_spec ex ey) as [He|He|He]; cbn [CompOpp];
    try destruct (Heq He) as [-> ->];
    try destruct (Pos.compare_spec mx my) as [Hm|Hm|Hm]; cbn [CompOpp];
    try specialize (Hlt He); try specialize (Hgt He);
    first [apply Z.ltb_lt; lia | apply Z.ltb_ge; lia].
Qed.

Lemma zero_leb_ltb (v : number) :
  isNaN v = false -> (v >=? Num.zero)%num = negb (v <? Num.zero)%num.
Proof. destruct v as [[|]|[|]| |[|] m e]; intros H; try discriminate; reflexivity. Qed.

Lemma SortCompare_number (comparefn : number -> number -> number)
    (x y : number) :
  isNaN (SortCompare comparefn x y) = false.
Proof. unfold SortCompare. now destruct (comparefn x y). Qed.

(** The comparator [a - b] of [textMedian] orders valid numbers as [<]
    does. *)
Lemma SortCompare_sub_order (x y : number) :
  valid_binary prec emax x = true -> valid_binary prec emax y = true ->
  isNaN x = false -> isNaN y = false ->
  (SortCompare Num.sub x y <? Num.zero)%num = (x <? y)%num.
Proof.
  intros Hx Hy Hnx Hny.
  destruct x as [sx|sx| |sx mx ex], y as [sy|sy| |sy my ey];
    try discriminate;
    try (destruct sx, sy; reflexivity);
    try (destruct sx; reflexivity); try (destruct sy; reflexivity).
  destruct (sub_finite_order sx sy mx my ex ey Hx Hy) as (H1 & _ & H3).
  unfold SortCompare. rewrite H3. exact H1.
Qed.

(** *** The sort orders numbers *)

Lemma comparable_order (x y : number) :
  comparable x = true -> comparable y = true ->
  (SortCompare Num.sub x y <? Num.zero)%num = (x <? y)%num.
Proof.
  unfold comparable. intros Hx Hy.
  apply andb_prop in Hx as [Hnx Hx]. apply andb_prop in Hy as [Hny Hy].
  apply negb_true_iff in Hnx, Hny. now apply SortCompare_sub_order.
Qed.

Lemma comparable_number (x : number) : comparable x = true -> isNaN x = false.
Proof.
  unfold comparable. intros H. apply andb_prop in H as [H _].
  now apply negb_true_iff in H.
Qed.

Lemma not_ltb_leb (a b : number) :
  isNaN a = false -> isNaN b = false ->
  (a <? b)%num = false -> (b <=? a)%num = true.
Proof.
  intros Ha Hb Hab. destruct (b <=? a)%num eqn:Hba; [reflexivity|].
  now rewrite (not_leb_ltb _ _ Hb Ha Hba) in Hab.
Qed.

Lemma ltb_leb (a b : number) : (a <? b)%num = true -> (a <=? b)%num = true.
Proof.
  intros H. destruct (ltb_numbers _ _ H) as [Ha Hb].
  apply leb_key; [assumption..|]. order_keys. lia.
Qed.

Lemma leb_transitive :
  Relations_1.Transitive (fun a b : number => (a <=? b)%num = true).
Proof. intros a b c. apply leb_trans. Qed.

Lemma gtb_transitive :
  Relations_1.Transitive (fun a b : number => (b <? a)%num = true).
Proof.
  intros a b c Hab Hbc. exact (ltb_leb_trans _ _ _ Hbc (ltb_leb _ _ Hab)).
Qed.

Lemma run_extent_ascending (previousElement : number) (rest : list number) :
  Forall (fun x => comparable x = true) (previousElement :: rest) ->
  Sorted (fun a b => (a <=? b)%num = true)
    (previousElement
     :: take (run_extent Num.sub false previousElement rest) rest).
Proof.
  revert previousElement.
  induction rest as [|currentElement rest IH]; intros previousElement Hall;
    cbn [run_extent take]; [repeat constructor|].
  apply Forall_cons in Hall as [Hprev Hall].
  pose proof Hall as Hrest. apply Forall_cons in Hrest as [Hcur _].
  rewrite (comparable_order _ _ Hcur Hprev).
  destruct (currentElement <? previousElement)%num eqn:Horder;
    cbn [take]; [repeat constructor|].
  constructor; [now apply IH|]. constructor.
  apply not_ltb_leb; [now apply comparable_number..|exact Horder].
Qed.

Lemma run_extent_descending (previousElement : number) (rest : list number) :
  Forall (fun x => comparable x = true) (previousElement :: rest) ->
  Sorted (fun a b => (b <? a)%num = true)
    (previousElement
     :: take (run_extent Num.sub true previousElement rest) rest).
Proof.
  revert previousElement.
  induction rest as [|currentElement rest IH]; intros previousElement Hall;
    cbn [run_extent take]; [repeat constructor|].
  apply Forall_cons in Hall as [Hprev Hall].
  pose proof Hall as Hrest. apply Forall_cons in Hrest as [Hcur _].
  rewrite zero_leb_ltb by apply SortCompare_number.
  rewrite (comparable_order _ _ Hcur Hprev).
  destruct (currentElement <? previousElement)%num eqn:Horder;
    cbn [negb take]; [|repeat constructor].
  constructor; [now apply IH|]. constructor. exact Horder.
Qed.

Lemma run_extent_length (comparefn : number -> number -> number)
    (isDescending : bool) (previousElement : number) (rest : list number) :
  (run_extent comparefn isDescending previousElement rest <= length rest)%nat.
Proof.
  revert previousElement.
  induction rest as [|currentElement rest IH]; intros previousElement;
    cbn [run_extent length]; [lia|].
  destruct (if isDescending then _ else _); [lia|].
  specialize (IH currentElement). lia.
Qed.

Lemma StronglySorted_rev (R : relation number) (l : list number) :
  StronglySorted R l -> StronglySorted (flip R) (rev l).
Proof.
  induction 1 as [|a l Hl IH Ha]; cbn [rev]; [constructor|].
  apply StronglySorted_app_2; [|exact IH|repeat constructor].
  intros x1 x2 Hx1 Hx2. apply list_elem_of_singleton in Hx2 as ->.
  apply list_elem_of_In, in_rev, list_elem_of_In in Hx1.
  exact (proj1 (Forall_forall _ _) Ha _ Hx1).
Qed.

Lemma StronglySorted_weaken (R1 R2 : relation number) (l : list number) :
  (forall a b, R1 a b -> R2 a b) ->
  StronglySorted R1 l -> StronglySorted R2 l.
Proof.
  intros H. induction 1 as [|a l Hl IH Ha]; constructor; [exact IH|].
  eapply Forall_impl; [exact Ha|]. intros b. apply H.
Qed.

(** The run that [CountAndMakeRun] finds is ascending, and the array is
    otherwise as it was. *)
Lemma CountAndMakeRun_ascending (array : list number) :
  Forall (fun x => comparable x = true) array ->
  let '(workArray, runLength) := CountAndMakeRun Num.sub array in
  ascending (take runLength workArray).
Proof.
  intros Hall. unfold CountAndMakeRun, ascending.
  destruct array as [|elementHigh [|elementLow rest]].
  - constructor.
  - cbn. repeat constructor.
  - pose proof Hall as Hall'.
    apply Forall_cons in Hall' as [Hhigh Hrest].
    pose proof Hrest as Hrest'. apply Forall_cons in Hrest' as [Hlow _].
    rewrite (comparable_order _ _ Hlow Hhigh).
    destruct (elementLow <? elementHigh)%num eqn:Horder.
    + set (extent := run_extent Num.sub true elementLow rest).
      pose proof (run_extent_length Num.sub true elementLow rest) as Hextent.
      fold extent in Hextent.
      rewrite take_app_length'
        by (rewrite length_rev, length_take; cbn [length]; lia).
      apply (StronglySorted_weaken (flip (fun a b => (b <? a)%num = true)));
        [intros a b; apply ltb_leb|].
      apply StronglySorted_rev,
        (Sorted.Sorted_StronglySorted gtb_transitive).
      change (take (2 + extent) (elementHigh :: elementLow :: rest))
        with (elementHigh :: elementLow :: take extent rest).
      constructor; [now apply run_extent_descending|].
      constructor. exact Horder.
    + set (extent := run_extent Num.sub false elementLow rest).
      change (take (2 + extent) (elementHigh :: elementLow :: rest))
        with (elementHigh :: elementLow :: take extent rest).
      apply (Sorted.Sorted_StronglySorted leb_transitive).
      constructor; [now apply run_extent_ascending|].
      constructor.
      apply not_ltb_leb; [now apply comparable_number..|exact Horder].
Qed.

(** The binary search stops at the place of the pivot: behind every element
    that is not above it, before every element that is. *)
Lemma binary_search_place (run : list number) (pivot : number) :
  Forall (fun x => comparable x = true) run -> comparable pivot = true ->
  ascending run ->
  forall (fuel left right : nat),
    (left <= right <= length run)%nat -> (right - left <= fuel)%nat ->
    Forall (fun a => (pivot <? a)%num = false) (take left run) ->
    Forall (fun a => (pivot <? a)%num = true) (drop right run) ->
    let place := binary_search fuel Num.sub run pivot left right in
    (left <= place <= right)%nat
    /\ Forall (fun a => (pivot <? a)%num = false) (take place run)
    /\ Forall (fun a => (pivot <? a)%num = true) (drop place run).
Proof.
  intros Hrun Hpivot Hsorted fuel.
  induction fuel as [|fuel IH]; intros left right Hbounds Hfuel Hleft Hright;
    cbn [binary_search]; cbv zeta.
  { replace right with left in Hright by lia. repeat split; [lia..| |]; assumption. }
  destruct (Nat.ltb_spec left right) as [Hlt|Hge].
  2: { replace right with left in Hright by lia.
       repeat split; [lia..| |]; assumption. }
  set (mid := (left + (right - left) / 2)%nat).
  assert (Hmid : (left <= mid < right)%nat).
  { unfold mid. split; [lia|].
    pose proof (Nat.div_lt (right - left) 2 ltac:(lia) ltac:(lia)). lia. }
  destruct (lookup_lt_is_Some_2 run mid ltac:(lia)) as [a Ha].
  rewrite Ha. cbn [default from_option]. unfold id.
  pose proof (take_drop_middle run mid a Ha) as Hsplit.
  assert (Hcomparable : comparable a = true).
  { apply (proj1 (Forall_forall _ _) Hrun). eapply list_elem_of_lookup_2, Ha. }
  rewrite (comparable_order _ _ Hpivot Hcomparable).
  unfold ascending in Hsorted. rewrite <- Hsplit in Hsorted.
  apply StronglySorted_app in Hsorted as (Hcross & _ & Htail).
  apply StronglySorted_cons in Htail as [Habove _].
  destruct (pivot <? a)%num eqn:Horder.
  - destruct (IH left mid ltac:(lia) ltac:(lia) Hleft) as (H1 & H2 & H3).
    { rewrite <- Hsplit, drop_app_length' by (rewrite length_take; lia).
      constructor; [exact Horder|].
      eapply Forall_impl; [exact Habove|]. intros b Hb.
      exact (ltb_leb_trans _ _ _ Horder Hb). }
    repeat split; [lia..|exact H2|exact H3].
  - destruct (IH (mid + 1)%nat right ltac:(lia) ltac:(lia)) as (H1 & H2 & H3);
      [|exact Hright|repeat split; [lia..|exact H2|exact H3]].
    replace (mid + 1)%nat with (S mid) by lia.
    rewrite (take_S_r _ _ _ Ha). apply Forall_app. split.
    + apply Forall_forall. intros b Hb.
      destruct (pivot <? b)%num eqn:Hpb; [|reflexivity].
      assert (Hba : (b <=? a)%num = true).
      { apply Hcross; [exact Hb|]. apply list_elem_of_here. }
      now rewrite (ltb_leb_trans _ _ _ Hpb Hba) in Horder.
    + repeat constructor. exact Horder.
Qed.

Lemma insert_ascending (run : list number) (pivot : number) (place : nat) :
  Forall (fun x => comparable x = true) run -> comparable pivot = true ->
  ascending run ->
  Forall (fun a => (pivot <? a)%num = false) (take place run) ->
  Forall (fun a => (pivot <? a)%num = true) (drop place run) ->
  ascending (take place run ++ pivot :: drop place run).
Proof.
  intros Hrun Hpivot Hsorted Hbelow Habove. unfold ascending in *.
  rewrite <- (take_drop place run) in Hsorted.
  apply StronglySorted_app in Hsorted as (Hcross & Hhead & Htail).
  apply StronglySorted_app_2; [|exact Hhead|].
  - intros x1 x2 Hx1 Hx2. apply elem_of_cons in Hx2 as [->|Hx2].
    + apply not_ltb_leb.
      * now apply comparable_number.
      * apply comparable_number, (proj1 (Forall_forall _ _) Hrun).
        exact (subseteq_take place run x1 Hx1).
      * exact (proj1 (Forall_forall _ _) Hbelow _ Hx1).
    + now apply Hcross.
  - constructor; [exact Htail|].
    eapply Forall_impl; [exact Habove|]. intros b. apply ltb_leb.
Qed.

Lemma BinaryInsertionSort_ascending (run rest : list number) :
  Forall (fun x => comparable x = true) run ->
  Forall (fun x => comparable x = true) rest ->
  ascending run ->
  ascending (BinaryInsertionSort Num.sub run rest).
Proof.
  revert run. induction rest as [|pivot rest IH]; intros run Hrun Hrest Hsorted;
    cbn [BinaryInsertionSort]; [exact Hsorted|].
  apply Forall_cons in Hrest as [Hpivot Hrest].
  destruct (binary_search_place run pivot Hrun Hpivot Hsorted (length run) 0
              (length run) ltac:(lia) ltac:(lia))
    as (_ & Hbelow & Habove).
  { rewrite take_0. constructor. }
  { rewrite drop_all. constructor. }
  apply IH; [|exact Hrest|now apply insert_ascending].
  apply Forall_app. split; [now apply Forall_take|].
  constructor; [exact Hpivot|now apply Forall_drop].
Qed.

(** With the comparator [a - b], an array of valid numbers comes out in
    ascending order. *)
Lemma Array_sort_ascending (array : list number) :
  Forall (fun x => comparable x = true) array ->
  ascending (Array_sort Num.sub array).
Proof.
  intros Hall. unfold Array_sort.
  pose proof (CountAndMakeRun_perm Num.sub array) as Hperm.
  pose proof (CountAndMakeRun_ascending array Hall) as Hrun.
  destruct (CountAndMakeRun Num.sub array) as [workArray runLength].
  assert (Hwork : Forall (fun x => comparable x = true) workArray)
    by now rewrite Hperm.
  apply BinaryInsertionSort_ascending;
    [now apply Forall_take|now apply Forall_drop|exact Hrun].
Qed.

(** In an ascending array every element before an index is at most the
    element there, and every element behind it is at least that. *)
Lemma ascending_at (array : list number) (i : nat) (x : number) :
  ascending array -> array !! i = Some x ->
  array = take i array ++ x :: drop (S i) array
  /\ Forall (fun a => (a <=? x)%num = true) (take i array)
  /\ Forall (fun a => (x <=? a)%num = true) (drop (S i) array).
Proof.
  intros Hsorted Hx. pose proof (take_drop_middle array i x Hx) as Hsplit.
  split; [now symmetry|].
  unfold ascending in Hsorted. rewrite <- Hsplit in Hsorted.
  apply StronglySorted_app in Hsorted as (Hcross & _ & Htail).
  apply StronglySorted_cons in Htail as [Habove _].
  split; [|exact Habove].
  apply Forall_forall. intros a Ha. apply Hcross; [exact Ha|].
  apply list_elem_of_here.
Qed.

(** The fuel of the search is never used up: any fuel of [right - left] or
    more gives the same place, the one the loop stops at by its own test. *)
Lemma binary_search_fuel (comparefn : number -> number -> number)
    (run : list number) (pivot : number) (fuel1 fuel2 left right : nat) :
  (right - left <= fuel1)%nat -> (right - left <= fuel2)%nat ->
  binary_search fuel1 comparefn run pivot left right
  = binary_search fuel2 comparefn run pivot left right.
Proof.
  revert fuel2 left right.
  induction fuel1 as [|fuel1 IH]; intros fuel2 left right H1 H2.
  - destruct fuel2 as [|fuel2]; cbn [binary_search]; [reflexivity|].
    destruct (Nat.ltb_spec left right); [lia|reflexivity].
  - destruct fuel2 as [|fuel2]; cbn [binary_search].
    + destruct (Nat.ltb_spec left right); [lia|reflexivity].
    + destruct (Nat.ltb_spec left right) as [Hlt|Hge]; [|reflexivity].
      pose proof (Nat.div_lt (right - left) 2 ltac:(lia) ltac:(lia)).
      cbv zeta. destruct (_ <? Num.zero)%num; apply IH; lia.
Qed.

(** *** The scores of [textMedian] *)

Lemma legacyRound_valid (x : number) (points : nat) :
  valid_binary prec emax (legacyRound x points) = true.
Proof. unfold legacyRound. apply div_valid. Qed.

Lemma guard_valid (returnVal : number) :
  valid_binary prec emax returnVal = true ->
  valid_binary prec emax (if negb (isNaN returnVal) then returnVal else Num.zero)
  = true.
Proof. intros H. now destruct (negb (isNaN returnVal)). Qed.

(** Each of the eight scores is a valid binary64 number (or NaN). *)
Lemma textMedian_grade_valid (text : jsstring) :
  Forall (fun score => valid_binary prec emax score = true)
    (textMedian_grade text).
Proof.
  unfold textMedian_grade. cbv zeta. cbn [app].
  repeat constructor.
  - apply legacyRound_valid.
  - unfold fleschReadingEaseToGrade. split_ifs; vm_compute; reflexivity.
  - unfold smogIndex. cbv zeta.
    destruct (sentenceCount text >=? 3); [|reflexivity].
    apply guard_valid, legacyRound_valid.
  - apply legacyRound_valid.
  - apply guard_valid, legacyRound_valid.
  - unfold daleChallToGrade. split_ifs; vm_compute; reflexivity.
  - unfold linsearWriteFormula. cbv zeta.
    destruct (fold_left _ _ _) as [easyWord difficultWord].
    apply guard_valid, legacyRound_valid.
  - apply guard_valid, legacyRound_valid.
Qed.

Lemma textMedian_grade_comparable (text : jsstring) :
  forallb (fun score => negb (isNaN score)) (textMedian_grade text) = true ->
  Forall (fun score => comparable score = true) (textMedian_grade text).
Proof.
  intros Hnumbers.
  pose proof (textMedian_grade_valid text) as Hvalid.
  apply Forall_forall. intros score Hscore. unfold comparable.
  rewrite (proj1 (Forall_forall _ _) Hvalid score Hscore), andb_true_r.
  apply (proj1 (forallb_forall _ _) Hnumbers). now apply list_elem_of_In.
Qed.


End Readability.

(** ** The engine on concrete texts *)

(** C1, the claim as stated fails. On the empty text [fleschReadingEase]
    returns [206.84], and [colemanLiauIndex], [lix] and [rix] return NaN
    (the last although it tests its ratio: the ratio is [0], and rounding
    [0] gives NaN). On a text that is a single tab, which the tokenizer does
    not take for a separator, [gunningFog] returns [0.4]. *)
Lemma empty_text_not_all_zero :
  fleschReadingEase fixture_syllable fixture_lower (str "") = dec 20684 2 /\
  (fleschReadingEase fixture_syllable fixture_lower (str "") === Num.zero)%num = false /\
  isNaN (colemanLiauIndex (str "")) = true /\
  isNaN (lix (str "")) = true /\
  isNaN (rix (str "")) = true /\
  gunningFog fixture_syllable fixture_pluralize fixture_easyWords fixture_lower [9%N]
  = dec 4 1.
Proof. vm_compute. repeat split. Qed.

Lemma blank_text_guarded_formulas_witness :
  forallb blank [32; 10; 13; 32]%N = true /\
  gunningFog fixture_syllable fixture_pluralize fixture_easyWords fixture_lower
    [32; 10; 13; 32]%N = Num.zero /\
  fleschReadingEase fixture_syllable fixture_lower [32; 10; 13; 32]%N = dec 20684 2.
Proof.
  split; [reflexivity|].
  destruct (blank_text_guarded_formulas fixture_syllable fixture_pluralize
              fixture_easyWords fixture_lower fixture_pow [32; 10; 13; 32]%N)
    as (_ & _ & _ & _ & _ & Hfog & _ & _ & _ & Hflesch); [reflexivity|].
  split; [exact Hfog|exact Hflesch].
Defined.

(** C4, the claim as stated fails: with a syllable estimate of 2 for photon
    (a word outside the dictionary), the word is difficult at the threshold
    2 and no longer at 3. *)
Lemma difficultWords_drops_with_threshold :
  fixture_syllable (str "photon") = 2%N /\
  difficultWords fixture_syllable fixture_pluralize fixture_easyWords fixture_lower
    (str "photon") 2 = 1 /\
  difficultWords fixture_syllable fixture_pluralize fixture_easyWords fixture_lower
    (str "photon") 3 = 0 /\
  (difficultWords fixture_syllable fixture_pluralize fixture_easyWords fixture_lower
     (str "photon") 2
   <=? difficultWords fixture_syllable fixture_pluralize fixture_easyWords
         fixture_lower (str "photon") 3) = false.
Proof. vm_compute. repeat split. Qed.

Lemma difficultWords_antitone_witness :
  difficultWords fixture_syllable fixture_pluralize fixture_easyWords fixture_lower
    (str "photon") 3
  <= difficultWords fixture_syllable fixture_pluralize fixture_easyWords
       fixture_lower (str "photon") 2.
Proof. apply difficultWords_antitone. lia. Defined.

(** C6, the claim as stated fails: with like in the dictionary, liked is
    returned as it is (five characters), and running loses its suffix only
    (the doubled consonant stays). *)
Lemma presentTense_liked_running :
  In (str "like") fixture_easyWords /\
  presentTense fixture_easyWords (str "liked") = str "liked" /\
  presentTense fixture_easyWords (str "running") = str "runn".
Proof. split; [cbn; tauto|]. vm_compute. split; reflexivity. Qed.

Lemma presentTense_branches_witness :
  presentTense fixture_easyWords (str "walk") = str "walk" /\
  presentTense fixture_easyWords (str "forcing") = str "force" /\
  presentTense fixture_easyWords (str "walked") = str "walk" /\
  presentTense fixture_easyWords (str "eating") = str "eat" /\
  presentTense fixture_easyWords (str "zebras") = str "zebras".
Proof.
  destruct (presentTense_branches fixture_easyWords)
    as (Hshort & _ & Hing & Hed & Heat & Hother).
  split; [apply Hshort; cbn; lia|].
  split; [change (str "forcing") with (str "forc" ++ str "ing");
          rewrite Hing by (cbn; lia); vm_compute; reflexivity|].
  split; [change (str "walked") with (str "walk" ++ str "ed");
          rewrite Hed by (cbn; lia); vm_compute; reflexivity|].
  split; [apply Heat; vm_compute; intros H; discriminate H|].
  apply Hother; reflexivity.
Defined.

Lemma legacyRound_zero_is_NaN_witness :
  lexiconCount (str "") true = 0 /\
  legacyRound (of_Z (charCount (str "") true) / of_Z 0)%num 2 = Num.NaN /\
  averageCharacterPerWord (str "") = Num.zero.
Proof.
  split; [reflexivity|].
  destruct (legacyRound_zero_is_NaN fixture_syllable fixture_lower)
    as (_ & _ & _ & Hguard).
  destruct (Hguard (str "") eq_refl) as (_ & _ & Hchar & _).
  exact Hchar.
Defined.

(** The votes of the empty text: five of the fifteen are NaN, which [===]
    never counts, and the winner is 0 with its three votes. *)
Lemma textStandard_empty_text :
  let grade :=
    textStandard_grade fixture_syllable fixture_pluralize fixture_easyWords
      fixture_lower fixture_pow (str "") in
  length (List.filter isNaN grade) = 5%nat /\
  counterMap grade
  = [ (of_Z (-17), 1); (of_Z (-15), 1); (of_Z 16, 1); (Num.NaN, 0);
      (Num.zero, 3); (of_Z 4, 2); (of_Z (-2), 1); (of_Z (-1), 1) ] /\
  finalGrade grade = Some (Num.zero, 3).
Proof. vm_compute. repeat split. Qed.

(** C2, the claim as stated fails. On the empty text five of the fifteen
    votes are NaN, more than any other value has: NaN is the mode of the
    multiset. No vote is [===] to NaN, so its count is zero, and the winner
    is 0 with its three votes. *)
Lemma textStandard_mode_is_not_NaN :
  textStandard_grade fixture_syllable fixture_pluralize fixture_easyWords
    fixture_lower fixture_pow (str "")
  = [ of_Z (-17); of_Z (-15); of_Z 16; Num.NaN; Num.zero; Num.NaN; Num.NaN;
      Num.NaN; Num.zero; of_Z 4; of_Z 4; of_Z (-2); of_Z (-1); Num.NaN;
      Num.zero ] /\
  length
    (List.filter isNaN
       (textStandard_grade fixture_syllable fixture_pluralize
          fixture_easyWords fixture_lower fixture_pow (str ""))) = 5%nat /\
  length
    (List.filter (fun vote => (vote === Num.zero)%num)
       (textStandard_grade fixture_syllable fixture_pluralize
          fixture_easyWords fixture_lower fixture_pow (str ""))) = 3%nat /\
  textStandard fixture_syllable fixture_pluralize fixture_easyWords
    fixture_lower fixture_pow fixture_toString (str "") true
  = Some (ConsensusNumber Num.zero).
Proof. vm_compute. repeat split. Qed.


(** ** The conditional properties on sample texts *)

(** A text without punctuation is returned as it is. *)
Lemma removePunctuation_idempotent_witness :
  forallb (fun c => negb (punctuationRE c)) (str "the cat") = true /\
  removePunctuation (str "the cat") = str "the cat".
Proof.
  split; [reflexivity|].
  destruct (removePunctuation_idempotent (str "the cat")) as (_ & _ & Hkept & _).
  apply Hkept. reflexivity.
Defined.

(** Three sentences in lower case count as one. *)
Lemma lowercase_text_one_sentence_witness :
  forallb (fun c => negb (in_range 65 90 c))
    (str "it rains here. it pours there. it stops soon.") = true /\
  splitSentences (str "it rains here. it pours there. it stops soon.")
  = [str "it rains here. it pours there. it stops soon."] /\
  sentenceCount (str "it rains here. it pours there. it stops soon.") = 1 /\
  smogIndex fixture_syllable fixture_lower fixture_pow
    (str "it rains here. it pours there. it stops soon.") = Num.zero.
Proof.
  split; [reflexivity|].
  apply (lowercase_text_one_sentence fixture_syllable fixture_lower fixture_pow
           (str "it rains here. it pours there. it stops soon.")).
  reflexivity.
Defined.

(** A text of punctuation only: the scan finds nothing and no word is
    difficult. *)
Lemma matchAll_tokens_witness :
  matchAll wordChar (str "?!") = None /\
  difficultWords fixture_syllable fixture_pluralize fixture_easyWords
    fixture_lower (str "?!") 2 = 0.
Proof.
  split; [reflexivity|].
  destruct (matchAll_tokens fixture_syllable fixture_pluralize
              fixture_easyWords fixture_lower (str "?!")) as (_ & _ & Hnone).
  apply Hnone. reflexivity.
Defined.

(** An ellipsis is a token of [split] but no word once the punctuation is
    removed. *)
Lemma wordless_text_scores_witness :
  lexiconCount (str "...") true = 0 /\
  fleschReadingEase fixture_syllable fixture_lower (str "...") = dec 20684 2 /\
  fleschKincaidGrade fixture_syllable fixture_lower (str "...")
  = (- dec 157 1)%num /\
  gunningFog fixture_syllable fixture_pluralize fixture_easyWords fixture_lower
    (str "...") = Num.zero /\
  isNaN (colemanLiauIndex (str "...")) = true.
Proof.
  split; [reflexivity|].
  destruct (wordless_text_scores fixture_syllable fixture_pluralize
              fixture_easyWords fixture_lower (str "...") eq_refl)
    as (Hease & Hkincaid & _ & Hfog & _ & Hcoleman & _).
  split; [exact Hease|]. split; [exact Hkincaid|].
  split; [exact Hfog|exact Hcoleman].
Defined.

(** The scores 5.5 and 8.2 get the grades 5 and 11. *)
Lemma daleChallToGrade_monotone_witness :
  (dec 55 1 <=? dec 82 1)%num = true /\
  (daleChallToGrade (dec 55 1) <=? daleChallToGrade (dec 82 1))%num = true.
Proof.
  split; [vm_compute; reflexivity|].
  apply (proj1 daleChallToGrade_monotone). vm_compute. reflexivity.
Defined.

(** A score of 120 gets the grade 16, and 95 a grade no higher than 65.5. *)
Lemma fleschReadingEaseToGrade_table_witness :
  (of_Z 120 >=? of_Z 100)%num = true /\
  fleschReadingEaseToGrade (of_Z 120) = of_Z 16 /\
  (dec 655 1 <=? of_Z 95)%num = true /\
  (of_Z 95 <? of_Z 100)%num = true /\
  (fleschReadingEaseToGrade (of_Z 95)
   <=? fleschReadingEaseToGrade (dec 655 1))%num = true.
Proof.
  destruct fleschReadingEaseToGrade_table as (_ & Hhigh & _ & _ & Hanti).
  split; [vm_compute; reflexivity|].
  split; [apply Hhigh; vm_compute; reflexivity|].
  split; [vm_compute; reflexivity|].
  split; [vm_compute; reflexivity|].
  apply Hanti; vm_compute; reflexivity.
Defined.

(** Three short words in one sentence. *)
Lemma rix_NaN_without_long_words_witness :
  longWordCount (split (str "the cat sat.")) = 0 /\
  isNaN (rix (str "the cat sat.")) = true.
Proof.
  split; [reflexivity|].
  apply (rix_NaN_without_long_words (str "the cat sat.")). reflexivity.
Defined.

(** 3.14 is rounded to a number at one decimal. *)
Lemma legacyRound_NaN_iff_witness :
  (1 <= 2)%nat /\
  isNaN (legacyRound (dec 314 2) 1) = degenerate (dec 314 2).
Proof. split; [lia|]. apply (legacyRound_NaN_iff (dec 314 2) 1). lia. Defined.

